(** * A recursive descent parser for integer arithmetic, verified

    Shallow embedding of [recursive_descent_parser_tutorial.c]: the six
    precedence-level parsing functions, the driver [parseInputString] and the
    diagnostic printer [printErrorMsg], followed by the properties of the
    program that its description states.

    Conventions of the embedding.
    - The input is a NUL-terminated C string.  It is held as a [string]; a
      [const char *] into it is the offset of the character it points to, and
      reading at or beyond the length yields the terminator ["000"].
    - [struct ParseData] is a record, threaded through the calls: each
      parsing function takes the record and returns the value together with
      the record as the call left it.
    - [ValueType] is [long long]: an integer in [-2^63, 2^63), every
      arithmetic result brought back into that range by [wrap]
      (two's-complement wrap-around).  C leaves signed overflow undefined;
      in particular [LLONG_MIN / -1], which the embedding takes to
      [LLONG_MIN], may stop the compiled program.  What is proved of a run
      that divides so, or overflows, is proved of the embedding.
    - The functions call each other recursively and loop; the embedding adds
      a [fuel] argument that every call and every loop iteration decrements.
      [None] means the fuel ran out, never a result of the program;
      [parseFuel] gives an amount that always suffices. *)

From Stdlib Require Import ZArith NArith String Ascii List Lia Bool Arith.
From Stdlib Require Import DecimalString DecimalPos.
Import ListNotations.

Local Open Scope Z_scope.

(** ** Types and utility functions *)

(** [typedef long long ValueType;] *)
Definition ValueType : Type := Z.

Definition LLONG_MAX : Z := 2 ^ 63 - 1.
Definition LLONG_MIN : Z := - 2 ^ 63.

Definition inRange (z : Z) : Prop := LLONG_MIN <= z <= LLONG_MAX.

(** Reduction of a mathematical integer to the 64-bit signed range. *)
Definition wrap (z : Z) : ValueType := (z + 2 ^ 63) mod 2 ^ 64 - 2 ^ 63.

(** [enum ParseErrorCode] *)
Inductive ParseErrorCode : Type :=
| ParseError_None
| ParseError_Syntax
| ParseError_Div0
| ParseError_NoClosingParenthesis.

(** [struct ParseData] *)
Record ParseData : Type := mkParseData {
  currentPosition : nat;
  errorCode : ParseErrorCode
}.

(** The test [if(data->errorCode)]. *)
Definition failed (data : ParseData) : bool :=
  match errorCode data with
  | ParseError_None => false
  | _ => true
  end.

Definition setPosition (data : ParseData) (p : nat) : ParseData :=
  {| currentPosition := p; errorCode := errorCode data |}.

Definition setError (data : ParseData) (e : ParseErrorCode) : ParseData :=
  {| currentPosition := currentPosition data; errorCode := e |}.

(** [++data->currentPosition] *)
Definition advance (data : ParseData) : ParseData :=
  setPosition data (S (currentPosition data)).

(** [*p] for a pointer at offset [p] of the string. *)
Definition charAt (str : string) (p : nat) : ascii :=
  match String.get p str with
  | Some c => c
  | None => "000"%char
  end.

(** [isspace] and [isdigit] of <ctype.h>, in the C locale. *)
Definition isspace (c : ascii) : bool :=
  let n := N_of_ascii c in
  ((9 <=? n) && (n <=? 13) || (n =? 32))%N.

Definition isdigit (c : ascii) : bool :=
  let n := N_of_ascii c in
  ((48 <=? n) && (n <=? 57))%N.

Definition digitValue (c : ascii) : Z := Z.of_N (N_of_ascii c) - 48.

(** [while(isspace( *str )) ++str;] The loop stops at the terminator at the
    latest, so [length str - p] iterations are enough. *)
Fixpoint skipWhitespace_loop (n : nat) (str : string) (p : nat) : nat :=
  match n with
  | O => p
  | S n' =>
      if isspace (charAt str p) then skipWhitespace_loop n' str (S p) else p
  end.

Definition skipWhitespace (str : string) (p : nat) : nat :=
  skipWhitespace_loop (String.length str - p) str p.

(** ** [strtoll] of the C library, base 10

    Modelled after ISO C 7.22.1.4: leading white space is skipped, one
    optional sign is taken, then the longest run of decimal digits.  Without
    a digit no conversion is performed: the value is 0 and the end pointer is
    the start pointer.  A value out of range is replaced by [LLONG_MAX] or
    [LLONG_MIN]. *)
Fixpoint scanDigits (n : nat) (str : string) (p : nat) (acc : Z) : Z * nat :=
  match n with
  | O => (acc, p)
  | S n' =>
      let c := charAt str p in
      if isdigit c then scanDigits n' str (S p) (acc * 10 + digitValue c)
      else (acc, p)
  end.

Definition clamp (z : Z) : ValueType :=
  if z <? LLONG_MIN then LLONG_MIN
  else if LLONG_MAX <? z then LLONG_MAX
  else z.

Definition strtoll (str : string) (nptr : nat) : ValueType * nat :=
  let p := skipWhitespace str nptr in
  let c := charAt str p in
  let negative := (c =? "-")%char in
  let p1 := if (c =? "-")%char || (c =? "+")%char then S p else p in
  let '(acc, endPtr) := scanDigits (String.length str - p1) str p1 0 in
  if Nat.eqb endPtr p1 then (0, nptr)
  else (clamp (if negative then - acc else acc), endPtr).

(** ** The parsing functions *)

Notation "' pat <- e ;; k" :=
  (match e with
   | Some pat => k
   | None => None
   end)
  (at level 100, pat pattern, e at next level, right associativity).

(** Lines 176-182 of [parseExponent]: the loop
    [while(--result2) result *= factor;] entered with [result2 > 0]. *)
Fixpoint powLoop (n : nat) (result2 result factor : ValueType) : ValueType :=
  match n with
  | O => result
  | S n' =>
      let result2 := result2 - 1 in
      if result2 =? 0 then result
      else powLoop n' result2 (wrap (result * factor)) factor
  end.

Definition raise (result result2 : ValueType) (data : ParseData)
  : ValueType * ParseData :=
  if result2 =? 0 then (1, data)
  else if (result2 <? 0) && (result =? 0)
       then (0, setError data ParseError_Div0)
  else if result2 <? 0 then (0, data)
  else
    let factor := result in
    (powLoop (Z.to_nat result2) result2 result factor, data).

Section Parser.

Variable str : string.

Definition skipWs (data : ParseData) : ParseData :=
  setPosition data (skipWhitespace str (currentPosition data)).

Definition current (data : ParseData) : ascii :=
  charAt str (currentPosition data).

(** Highest-precedence parsing function: an integer literal. *)
Definition parseValue (data : ParseData) : ValueType * ParseData :=
  let data := skipWs data in
  let '(result, endPtr) := strtoll str (currentPosition data) in
  let data :=
    if Nat.eqb endPtr (currentPosition data)
    then setError data ParseError_Syntax
    else data in
  (result, setPosition data endPtr).

Fixpoint parseAddSubtract (fuel : nat) (data : ParseData) {struct fuel}
  : option (ValueType * ParseData) :=
  match fuel with
  | O => None
  | S fuel =>
      '(result, data) <- parseMulDiv fuel data ;;
      if failed data then Some (result, data)
      else addSubLoop fuel result data
  end

(** The [while(1)] loop of [parseAddSubtract]. *)
with addSubLoop (fuel : nat) (result : ValueType) (data : ParseData)
  {struct fuel} : option (ValueType * ParseData) :=
  match fuel with
  | O => None
  | S fuel =>
      let data := skipWs data in
      let c := current data in
      if negb (c =? "+")%char && negb (c =? "-")%char then Some (result, data)
      else
        '(result2, data) <- parseMulDiv fuel (advance data) ;;
        if failed data then Some (result, data)
        else if (c =? "+")%char
             then addSubLoop fuel (wrap (result + result2)) data
             else addSubLoop fuel (wrap (result - result2)) data
  end

with parseMulDiv (fuel : nat) (data : ParseData) {struct fuel}
  : option (ValueType * ParseData) :=
  match fuel with
  | O => None
  | S fuel =>
      '(result, data) <- parseExponent fuel data ;;
      if failed data then Some (0, data)
      else mulDivLoop fuel result data
  end

(** The [while(1)] loop of [parseMulDiv]. *)
with mulDivLoop (fuel : nat) (result : ValueType) (data : ParseData)
  {struct fuel} : option (ValueType * ParseData) :=
  match fuel with
  | O => None
  | S fuel =>
      let data := skipWs data in
      let c := current data in
      if negb (c =? "*")%char && negb (c =? "/")%char then Some (result, data)
      else
        '(result2, data) <- parseExponent fuel (advance data) ;;
        if failed data then Some (0, data)
        else if (c =? "*")%char
             then mulDivLoop fuel (wrap (result * result2)) data
        else if result2 =? 0
             then Some (0, setError data ParseError_Div0)
        else mulDivLoop fuel (wrap (Z.quot result result2)) data
  end

with parseExponent (fuel : nat) (data : ParseData) {struct fuel}
  : option (ValueType * ParseData) :=
  match fuel with
  | O => None
  | S fuel =>
      '(result, data) <- parseUnaryMinus fuel data ;;
      if failed data then Some (result, data)
      else
        let data := skipWs data in
        if negb (current data =? "^")%char then Some (result, data)
        else
          '(result2, data) <- parseExponent fuel (advance data) ;;
          if failed data then Some (result, data)
          else Some (raise result result2 data)
  end

with parseUnaryMinus (fuel : nat) (data : ParseData) {struct fuel}
  : option (ValueType * ParseData) :=
  match fuel with
  | O => None
  | S fuel =>
      let data := skipWs data in
      let c := current data in
      let data := if (c =? "-")%char then advance data else data in
      '(result, data) <- parseParentheses fuel data ;;
      let result := if (c =? "-")%char then wrap (- result) else result in
      Some (result, data)
  end

with parseParentheses (fuel : nat) (data : ParseData) {struct fuel}
  : option (ValueType * ParseData) :=
  match fuel with
  | O => None
  | S fuel =>
      let data := skipWs data in
      if negb (current data =? "(")%char then Some (parseValue data)
      else
        '(result, data) <- parseAddSubtract fuel (advance data) ;;
        let data := skipWs data in
        if negb (current data =? ")")%char
        then Some (0, setError data ParseError_NoClosingParenthesis)
        else Some (result, advance data)
  end.

(** Main parsing function. *)
Definition parseInputString (fuel : nat) (data : ParseData)
  : option (ValueType * ParseData) :=
  '(result, data) <- parseAddSubtract fuel data ;;
  if failed data then Some (0, data)
  else
    let data := skipWs data in
    let data :=
      if negb (current data =? "000")%char
      then setError data ParseError_Syntax
      else data in
    Some (result, data).

End Parser.

(** [struct ParseData data = { argv[argInd], ParseError_None };] *)
Definition initialData : ParseData :=
  {| currentPosition := 0; errorCode := ParseError_None |}.

(** Fuel that suffices for any run on [str]. *)
Definition parseFuel (str : string) : nat := 8 * String.length str + 5.

(** One run of the parser as [main] performs it. *)
Definition parse (str : string) : option (ValueType * ParseData) :=
  parseInputString str (parseFuel str) initialData.

(** ** The diagnostic *)

(** [errorMessages[data->errorCode - 1]]; no entry for [ParseError_None]. *)
Definition errorMessages (e : ParseErrorCode) : option string :=
  match e with
  | ParseError_None => None
  | ParseError_Syntax => Some "Syntax error"%string
  | ParseError_Div0 => Some "Division by 0"%string
  | ParseError_NoClosingParenthesis => Some "Expecting )"%string
  end.

(** The [for] loop of [printErrorMsg]: one space per character before
    [data->currentPosition]. *)
Fixpoint spaces (n : nat) : string :=
  match n with
  | O => EmptyString
  | S n' => String " "%char (spaces n')
  end.

Definition newline : string := String "010"%char EmptyString.

(** [printErrorMsg]: the text written to the standard output, and the value
    returned. *)
Definition printErrorMsg (str : string) (data : ParseData)
  : option (string * Z) :=
  match errorMessages (errorCode data) with
  | None => None
  | Some msg =>
      Some ((str ++ newline ++
             spaces (currentPosition data) ++ "^" ++ newline ++
             msg ++ newline)%string, 1)
  end.

(** ** The command line *)

(** [printf("%lld", result)]: the decimal numeral of [result], with a
    leading ['-'] when it is negative. *)
Definition printf_lld (result : ValueType) : string :=
  NilZero.string_of_int (Z.to_int result).

(** [main] on the arguments [argv[1]] ... [argv[argc-1]]: the text written
    to the standard output and the exit status. *)
Fixpoint main (argv : list string) : option (string * Z) :=
  match argv with
  | [] => Some (EmptyString, 0)
  | arg :: rest =>
      '(result, data) <- parse arg ;;
      if failed data then printErrorMsg arg data
      else
        '(out, status) <- main rest ;;
        Some ((printf_lld result ++ newline ++ out)%string, status)
  end.

(** ** Notions used in the statements *)

(** The input contract: a C string holds no terminator before its end. *)
Fixpoint validCString (s : string) : bool :=
  match s with
  | EmptyString => true
  | String c s' => negb (c =? "000")%char && validCString s'
  end.

(** From [data] to [data'] the cursor did not move back and is still inside
    the string, the terminator included. *)
Definition within (str : string) (data data' : ParseData) : Prop :=
  (currentPosition data <= currentPosition data' <= String.length str)%nat.

(** Strings of white space and of decimal digits, and the number a string
    of digits denotes, read from the left with [acc] as the digits already
    read. *)
Fixpoint allSpaces (s : string) : bool :=
  match s with
  | EmptyString => true
  | String c s' => isspace c && allSpaces s'
  end.

Fixpoint allDigits (s : string) : bool :=
  match s with
  | EmptyString => true
  | String c s' => isdigit c && allDigits s'
  end.

Fixpoint decimalValue (s : string) (acc : Z) : Z :=
  match s with
  | EmptyString => acc
  | String c s' => decimalValue s' (acc * 10 + digitValue c)
  end.

(** The character [c] occurs in [s]. *)
Fixpoint occurs (c : ascii) (s : string) : bool :=
  match s with
  | EmptyString => false
  | String c' s' => (c' =? c)%char || occurs c s'
  end.

(** A state, and a result, with the cursor moved [k] characters on. *)
Definition shiftData (k : nat) (data : ParseData) : ParseData :=
  {| currentPosition := k + currentPosition data;
     errorCode := errorCode data |}.

Definition shiftResult (k : nat) (r : option (ValueType * ParseData))
  : option (ValueType * ParseData) :=
  match r with
  | Some (v, data) => Some (v, shiftData k data)
  | None => None
  end.

(** The characters an error kind needs in the input: an opening parenthesis
    for [ParseError_NoClosingParenthesis], a division or power operator for
    [ParseError_Div0]. *)
Definition errorExplained (str : string) (e : ParseErrorCode) : bool :=
  match e with
  | ParseError_None | ParseError_Syntax => true
  | ParseError_Div0 => occurs "/" str || occurs "^" str
  | ParseError_NoClosingParenthesis => occurs "(" str
  end.

(** The argument is accepted: it parses without error. *)
Definition succeeds (arg : string) : bool :=
  match parse arg with
  | Some (_, data) => negb (failed data)
  | None => false
  end.

(** What [main] prints for an accepted argument. *)
Definition resultLine (arg : string) : string :=
  match parse arg with
  | Some (result, _) => (printf_lld result ++ newline)%string
  | None => EmptyString
  end.

(** The binary operator characters. *)
Definition isOperator (c : ascii) : bool :=
  ((c =? "+") || (c =? "-") || (c =? "*") || (c =? "/") || (c =? "^"))%char.

(** Two states of a parse of [x] that differ at most by white space that
    one of them has already skipped. *)
Definition sameUpToSpace (x : string) (d1 d2 : ParseData) : Prop :=
  errorCode d1 = errorCode d2 /\
  skipWhitespace x (currentPosition d1) = skipWhitespace x (currentPosition d2).

(** ** Basic facts about the string and the scanners *)

Lemma get_beyond (str : string) :
  forall p, (String.length str <= p)%nat -> String.get p str = None.
Proof.
  induction str as [|c str IH]; intros p Hp; simpl in *.
  - reflexivity.
  - destruct p as [|p]; [lia|]. apply IH. lia.
Qed.

Lemma charAt_beyond (str : string) (p : nat) :
  (String.length str <= p)%nat -> charAt str p = "000"%char.
Proof.
  intros Hp. unfold charAt. now rewrite get_beyond.
Qed.

Lemma charAt_inside (str : string) (p : nat) :
  charAt str p <> "000"%char -> (p < String.length str)%nat.
Proof.
  intros Hc. destruct (le_lt_dec (String.length str) p) as [Hle|Hlt]; [|exact Hlt].
  exfalso. apply Hc. now apply charAt_beyond.
Qed.

Lemma charAt_eqb_inside (str : string) (p : nat) (c : ascii) :
  (charAt str p =? c)%char = true -> c <> "000"%char ->
  (p < String.length str)%nat.
Proof.
  intros Heq Hc. apply Ascii.eqb_eq in Heq. apply charAt_inside. congruence.
Qed.

Lemma skipWhitespace_loop_ge (str : string) :
  forall n p, (p <= skipWhitespace_loop n str p)%nat.
Proof.
  induction n as [|n IH]; intros p; simpl.
  - lia.
  - destruct (isspace (charAt str p)); [|lia].
    specialize (IH (S p)). lia.
Qed.

Lemma skipWhitespace_loop_le (str : string) :
  forall n p, (skipWhitespace_loop n str p <= p + n)%nat.
Proof.
  induction n as [|n IH]; intros p; simpl.
  - lia.
  - destruct (isspace (charAt str p)); [|lia].
    specialize (IH (S p)). lia.
Qed.

Lemma skipWhitespace_loop_stops (str : string) :
  forall n p, (String.length str <= p + n)%nat ->
  isspace (charAt str (skipWhitespace_loop n str p)) = false.
Proof.
  induction n as [|n IH]; intros p Hn; simpl.
  - rewrite charAt_beyond by lia. reflexivity.
  - destruct (isspace (charAt str p)) eqn:Hsp; [|exact Hsp].
    apply IH. lia.
Qed.

Lemma skipWhitespace_ge (str : string) (p : nat) :
  (p <= skipWhitespace str p)%nat.
Proof. apply skipWhitespace_loop_ge. Qed.

Lemma skipWhitespace_le (str : string) (p : nat) :
  (p <= String.length str)%nat ->
  (skipWhitespace str p <= String.length str)%nat.
Proof.
  intros Hp. unfold skipWhitespace.
  pose proof (skipWhitespace_loop_le str (String.length str - p) p). lia.
Qed.

Lemma skipWhitespace_stops (str : string) (p : nat) :
  isspace (charAt str (skipWhitespace str p)) = false.
Proof. apply skipWhitespace_loop_stops. lia. Qed.

Lemma skipWhitespace_fixed (str : string) (p : nat) :
  isspace (charAt str p) = false -> skipWhitespace str p = p.
Proof.
  intros Hsp. unfold skipWhitespace.
  destruct (String.length str - p)%nat; simpl; [reflexivity|].
  now rewrite Hsp.
Qed.

(** White-space skipping is idempotent. *)
Lemma skipWhitespace_idem (str : string) (p : nat) :
  skipWhitespace str (skipWhitespace str p) = skipWhitespace str p.
Proof. apply skipWhitespace_fixed, skipWhitespace_stops. Qed.

Lemma scanDigits_ge (str : string) :
  forall n p acc, (p <= snd (scanDigits n str p acc))%nat.
Proof.
  induction n as [|n IH]; intros p acc; simpl.
  - lia.
  - destruct (isdigit (charAt str p)); simpl; [|lia].
    specialize (IH (S p) (acc * 10 + digitValue (charAt str p))). lia.
Qed.

Lemma scanDigits_le (str : string) :
  forall n p acc, (snd (scanDigits n str p acc) <= p + n)%nat.
Proof.
  induction n as [|n IH]; intros p acc; simpl.
  - lia.
  - destruct (isdigit (charAt str p)); simpl; [|lia].
    specialize (IH (S p) (acc * 10 + digitValue (charAt str p))). lia.
Qed.

Lemma strtoll_bounds (str : string) (nptr : nat) :
  (nptr <= String.length str)%nat ->
  (nptr <= snd (strtoll str nptr) <= String.length str)%nat.
Proof.
  intros Hn. unfold strtoll.
  pose proof (skipWhitespace_ge str nptr) as Hge.
  pose proof (skipWhitespace_le str nptr Hn) as Hle.
  set (p := skipWhitespace str nptr) in *.
  set (p1 := if ((charAt str p =? "-")%char || (charAt str p =? "+")%char)%bool
             then S p else p).
  assert (Hp1 : (p <= p1 <= String.length str)%nat).
  { subst p1. destruct (charAt str p =? "-")%char eqn:Hm; simpl.
    - apply charAt_eqb_inside in Hm; [lia|discriminate].
    - destruct (charAt str p =? "+")%char eqn:Hpl; [|lia].
      apply charAt_eqb_inside in Hpl; [lia|discriminate]. }
  pose proof (scanDigits_ge str (String.length str - p1) p1 0) as H1.
  pose proof (scanDigits_le str (String.length str - p1) p1 0) as H2.
  destruct (scanDigits (String.length str - p1) str p1 0) as [acc endPtr].
  simpl in H1, H2.
  destruct (Nat.eqb endPtr p1); simpl; lia.
Qed.

(** ** Unfolding equations of the parsing functions *)

Section Equations.

Variable str : string.

Lemma parseAddSubtract_eq (fuel : nat) (data : ParseData) :
  parseAddSubtract str (S fuel) data =
  ('(result, data) <- parseMulDiv str fuel data ;;
   if failed data then Some (result, data)
   else addSubLoop str fuel result data).
Proof. reflexivity. Qed.

Lemma addSubLoop_eq (fuel : nat) (result : ValueType) (data : ParseData) :
  addSubLoop str (S fuel) result data =
  (let data := skipWs str data in
   let c := current str data in
   if negb (c =? "+")%char && negb (c =? "-")%char then Some (result, data)
   else
     '(result2, data) <- parseMulDiv str fuel (advance data) ;;
     if failed data then Some (result, data)
     else if (c =? "+")%char
          then addSubLoop str fuel (wrap (result + result2)) data
          else addSubLoop str fuel (wrap (result - result2)) data).
Proof. reflexivity. Qed.

Lemma parseMulDiv_eq (fuel : nat) (data : ParseData) :
  parseMulDiv str (S fuel) data =
  ('(result, data) <- parseExponent str fuel data ;;
   if failed data then Some (0, data)
   else mulDivLoop str fuel result data).
Proof. reflexivity. Qed.

Lemma mulDivLoop_eq (fuel : nat) (result : ValueType) (data : ParseData) :
  mulDivLoop str (S fuel) result data =
  (let data := skipWs str data in
   let c := current str data in
   if negb (c =? "*")%char && negb (c =? "/")%char then Some (result, data)
   else
     '(result2, data) <- parseExponent str fuel (advance data) ;;
     if failed data then Some (0, data)
     else if (c =? "*")%char
          then mulDivLoop str fuel (wrap (result * result2)) data
     else if result2 =? 0
          then Some (0, setError data ParseError_Div0)
     else mulDivLoop str fuel (wrap (Z.quot result result2)) data).
Proof. reflexivity. Qed.

Lemma parseExponent_eq (fuel : nat) (data : ParseData) :
  parseExponent str (S fuel) data =
  ('(result, data) <- parseUnaryMinus str fuel data ;;
   if failed data then Some (result, data)
   else
     let data := skipWs str data in
     if negb (current str data =? "^")%char then Some (result, data)
     else
       '(result2, data) <- parseExponent str fuel (advance data) ;;
       if failed data then Some (result, data)
       else Some (raise result result2 data)).
Proof. reflexivity. Qed.

Lemma parseUnaryMinus_eq (fuel : nat) (data : ParseData) :
  parseUnaryMinus str (S fuel) data =
  (let data := skipWs str data in
   let c := current str data in
   let data := if (c =? "-")%char then advance data else data in
   '(result, data) <- parseParentheses str fuel data ;;
   let result := if (c =? "-")%char then wrap (- result) else result in
   Some (result, data)).
Proof. reflexivity. Qed.

Lemma parseParentheses_eq (fuel : nat) (data : ParseData) :
  parseParentheses str (S fuel) data =
  (let data := skipWs str data in
   if negb (current str data =? "(")%char then Some (parseValue str data)
   else
     '(result, data) <- parseAddSubtract str fuel (advance data) ;;
     let data := skipWs str data in
     if negb (current str data =? ")")%char
     then Some (0, setError data ParseError_NoClosingParenthesis)
     else Some (result, advance data)).
Proof. reflexivity. Qed.

End Equations.

(** ** Proof steps shared by the inductions on the fuel *)

Ltac pos_simpl :=
  cbn [currentPosition errorCode advance setPosition setError skipWs] in *.

Tactic Notation "open_call" ident(v) ident(d) ident(E) :=
  match goal with
  | H : match ?e with Some _ => _ | None => _ end = Some _ |- _ =>
      destruct e as [[v d]|] eqn:E; [|discriminate H]
  end.

Ltac open_if :=
  match goal with
  | H : (if ?b then _ else _) = Some _ |- _ =>
      let E := fresh "Hif" in destruct b eqn:E
  end.

Ltac close_some :=
  match goal with
  | H : Some _ = Some _ |- _ => inversion H; subst; clear H
  end.

(** ** The cursor stays inside the string and never moves back *)

Section Bounds.

Variable str : string.

Local Abbreviation len := (String.length str).

Lemma skipWs_within (data : ParseData) :
  (currentPosition data <= len)%nat -> within str data (skipWs str data).
Proof.
  intros H. unfold within, skipWs. simpl.
  pose proof (skipWhitespace_ge str (currentPosition data)).
  pose proof (skipWhitespace_le str (currentPosition data) H). lia.
Qed.

Lemma guard1_inside (data : ParseData) (c : ascii) :
  negb (current str data =? c)%char = false -> c <> "000"%char ->
  (currentPosition data < len)%nat.
Proof.
  intros Hg Hc. apply negb_false_iff in Hg.
  now apply charAt_eqb_inside in Hg.
Qed.

Lemma guard2_inside (data : ParseData) (c1 c2 : ascii) :
  negb (current str data =? c1)%char && negb (current str data =? c2)%char
  = false ->
  c1 <> "000"%char -> c2 <> "000"%char ->
  (currentPosition data < len)%nat.
Proof.
  intros Hg H1 H2. apply andb_false_iff in Hg.
  destruct Hg as [Hg|Hg]; eapply guard1_inside; eauto.
Qed.

Lemma parseValue_within (data : ParseData) :
  (currentPosition data <= len)%nat ->
  within str data (snd (parseValue str data)).
Proof.
  intros H. unfold parseValue.
  pose proof (skipWs_within data H) as Hs. unfold within in *.
  pose proof (strtoll_bounds str (currentPosition (skipWs str data))) as Hb.
  destruct (strtoll str (currentPosition (skipWs str data))) as [v e].
  simpl in *. lia.
Qed.

Lemma tiers_within :
  forall fuel,
    (forall d v d', parseAddSubtract str fuel d = Some (v, d') ->
       (currentPosition d <= len)%nat -> within str d d') /\
    (forall r d v d', addSubLoop str fuel r d = Some (v, d') ->
       (currentPosition d <= len)%nat -> within str d d') /\
    (forall d v d', parseMulDiv str fuel d = Some (v, d') ->
       (currentPosition d <= len)%nat -> within str d d') /\
    (forall r d v d', mulDivLoop str fuel r d = Some (v, d') ->
       (currentPosition d <= len)%nat -> within str d d') /\
    (forall d v d', parseExponent str fuel d = Some (v, d') ->
       (currentPosition d <= len)%nat -> within str d d') /\
    (forall d v d', parseUnaryMinus str fuel d = Some (v, d') ->
       (currentPosition d <= len)%nat -> within str d d') /\
    (forall d v d', parseParentheses str fuel d = Some (v, d') ->
       (currentPosition d <= len)%nat -> within str d d').
Proof.
  induction fuel as [|fuel IH].
  { repeat apply conj; intros; discriminate. }
  destruct IH as (IHas & IHasl & IHmd & IHmdl & IHex & IHum & IHpa).
  repeat apply conj.
  - (* parseAddSubtract *)
    intros d v d' H Hd. rewrite parseAddSubtract_eq in H.
    open_call r1 d1 Hcall. apply IHmd in Hcall; [|assumption].
    open_if; [close_some; assumption|].
    apply IHasl in H; unfold within in *; lia.
  - (* addSubLoop *)
    intros r d v d' H Hd. rewrite addSubLoop_eq in H. cbv zeta in H.
    pose proof (skipWs_within d Hd) as Hs.
    open_if; [close_some; assumption|].
    apply guard2_inside in Hif; [|discriminate|discriminate].
    open_call r2 d2 Hcall. apply IHmd in Hcall; [|pos_simpl; lia].
    unfold within in *. pos_simpl.
    open_if; [close_some; lia|].
    open_if; apply IHasl in H; unfold within in *; lia.
  - (* parseMulDiv *)
    intros d v d' H Hd. rewrite parseMulDiv_eq in H.
    open_call r1 d1 Hcall. apply IHex in Hcall; [|assumption].
    open_if; [close_some; assumption|].
    apply IHmdl in H; unfold within in *; lia.
  - (* mulDivLoop *)
    intros r d v d' H Hd. rewrite mulDivLoop_eq in H. cbv zeta in H.
    pose proof (skipWs_within d Hd) as Hs.
    open_if; [close_some; assumption|].
    apply guard2_inside in Hif; [|discriminate|discriminate].
    open_call r2 d2 Hcall. apply IHex in Hcall; [|pos_simpl; lia].
    unfold within in *. pos_simpl.
    open_if; [close_some; lia|].
    open_if; [apply IHmdl in H; unfold within in *; lia|].
    open_if; [close_some; pos_simpl; lia|].
    apply IHmdl in H; unfold within in *; lia.
  - (* parseExponent *)
    intros d v d' H Hd. rewrite parseExponent_eq in H.
    open_call r1 d1 Hcall. apply IHum in Hcall; [|assumption].
    open_if; [close_some; assumption|].
    cbv zeta in H.
    assert (Hp : (currentPosition d1 <= len)%nat) by (unfold within in *; lia).
    pose proof (skipWs_within d1 Hp) as Hs.
    unfold within in *.
    open_if; [close_some; lia|].
    apply guard1_inside in Hif0; [|discriminate].
    open_call r2 d2 Hcall2. apply IHex in Hcall2; [|pos_simpl; lia].
    unfold within in *. pos_simpl.
    open_if; [close_some; lia|].
    close_some. unfold raise in H1.
    repeat match type of H1 with
           | context [if ?b then _ else _] => destruct b
           end; inversion H1; subst; pos_simpl; lia.
  - (* parseUnaryMinus *)
    intros d v d' H Hd. rewrite parseUnaryMinus_eq in H. cbv zeta in H.
    pose proof (skipWs_within d Hd) as Hs. unfold within in *.
    destruct (current str (skipWs str d) =? "-")%char eqn:Hm.
    + apply charAt_eqb_inside in Hm; [|discriminate].
      open_call r1 d1 Hcall. apply IHpa in Hcall; [|pos_simpl; lia].
      unfold within in *. pos_simpl. close_some. lia.
    + open_call r1 d1 Hcall. apply IHpa in Hcall; [|lia].
      unfold within in *. close_some. lia.
  - (* parseParentheses *)
    intros d v d' H Hd. rewrite parseParentheses_eq in H. cbv zeta in H.
    pose proof (skipWs_within d Hd) as Hs. unfold within in *.
    open_if.
    + close_some.
      pose proof (parseValue_within (skipWs str d) ltac:(lia)) as Hv.
      unfold within in Hv. rewrite H1 in Hv. cbn [snd] in Hv. pos_simpl. lia.
    + apply guard1_inside in Hif; [|discriminate].
      open_call r1 d1 Hcall. apply IHas in Hcall; [|pos_simpl; lia].
      unfold within in *. pos_simpl.
      assert (Hp : (currentPosition d1 <= len)%nat) by lia.
      pose proof (skipWs_within d1 Hp) as Hs'. unfold within in *.
      open_if; [close_some; pos_simpl; lia|].
      apply guard1_inside in Hif0; [|discriminate].
      close_some. pos_simpl. lia.
Qed.

End Bounds.

(** ** Fuel: more never changes a result, and [parseFuel] is enough *)

Section Fuel.

Variable str : string.

Local Abbreviation len := (String.length str).

Lemma tiers_fuel_mono :
  forall fuel,
    (forall d r, parseAddSubtract str fuel d = Some r ->
       forall fuel', (fuel <= fuel')%nat ->
       parseAddSubtract str fuel' d = Some r) /\
    (forall v d r, addSubLoop str fuel v d = Some r ->
       forall fuel', (fuel <= fuel')%nat ->
       addSubLoop str fuel' v d = Some r) /\
    (forall d r, parseMulDiv str fuel d = Some r ->
       forall fuel', (fuel <= fuel')%nat ->
       parseMulDiv str fuel' d = Some r) /\
    (forall v d r, mulDivLoop str fuel v d = Some r ->
       forall fuel', (fuel <= fuel')%nat ->
       mulDivLoop str fuel' v d = Some r) /\
    (forall d r, parseExponent str fuel d = Some r ->
       forall fuel', (fuel <= fuel')%nat ->
       parseExponent str fuel' d = Some r) /\
    (forall d r, parseUnaryMinus str fuel d = Some r ->
       forall fuel', (fuel <= fuel')%nat ->
       parseUnaryMinus str fuel' d = Some r) /\
    (forall d r, parseParentheses str fuel d = Some r ->
       forall fuel', (fuel <= fuel')%nat ->
       parseParentheses str fuel' d = Some r).
Proof.
  induction fuel as [|fuel IH].
  { repeat apply conj; intros; discriminate. }
  destruct IH as (IHas & IHasl & IHmd & IHmdl & IHex & IHum & IHpa).
  assert (Hlift : forall fuel', (S fuel <= S fuel')%nat -> (fuel <= fuel')%nat)
    by (intros; lia).
  repeat apply conj.
  - intros d r H [|fuel'] Hle; [lia|]. apply Hlift in Hle.
    rewrite parseAddSubtract_eq in *.
    open_call r1 d1 Hcall. rewrite (IHmd _ _ Hcall _ Hle).
    destruct (failed d1); [assumption|]. eapply IHasl; eassumption.
  - intros v d r H [|fuel'] Hle; [lia|]. apply Hlift in Hle.
    rewrite addSubLoop_eq in *. cbv zeta in *.
    open_if; [assumption|].
    open_call r2 d2 Hcall. rewrite (IHmd _ _ Hcall _ Hle).
    destruct (failed d2); [assumption|].
    open_if; eapply IHasl; eassumption.
  - intros d r H [|fuel'] Hle; [lia|]. apply Hlift in Hle.
    rewrite parseMulDiv_eq in *.
    open_call r1 d1 Hcall. rewrite (IHex _ _ Hcall _ Hle).
    destruct (failed d1); [assumption|]. eapply IHmdl; eassumption.
  - intros v d r H [|fuel'] Hle; [lia|]. apply Hlift in Hle.
    rewrite mulDivLoop_eq in *. cbv zeta in *.
    open_if; [assumption|].
    open_call r2 d2 Hcall. rewrite (IHex _ _ Hcall _ Hle).
    destruct (failed d2); [assumption|].
    open_if; [eapply IHmdl; eassumption|].
    open_if; [assumption|]. eapply IHmdl; eassumption.
  - intros d r H [|fuel'] Hle; [lia|]. apply Hlift in Hle.
    rewrite parseExponent_eq in *.
    open_call r1 d1 Hcall. rewrite (IHum _ _ Hcall _ Hle).
    destruct (failed d1); [assumption|]. cbv zeta in *.
    open_if; [assumption|].
    open_call r2 d2 Hcall2. rewrite (IHex _ _ Hcall2 _ Hle). assumption.
  - intros d r H [|fuel'] Hle; [lia|]. apply Hlift in Hle.
    rewrite parseUnaryMinus_eq in *. cbv zeta in *.
    open_call r1 d1 Hcall. rewrite (IHpa _ _ Hcall _ Hle). assumption.
  - intros d r H [|fuel'] Hle; [lia|]. apply Hlift in Hle.
    rewrite parseParentheses_eq in *. cbv zeta in *.
    open_if; [assumption|].
    open_call r1 d1 Hcall. rewrite (IHas _ _ Hcall _ Hle). assumption.
Qed.

Lemma tiers_total :
  forall fuel,
    (forall d, (currentPosition d <= len)%nat ->
       (8 * (len - currentPosition d) + 5 <= fuel)%nat ->
       exists r, parseAddSubtract str fuel d = Some r) /\
    (forall v d, (currentPosition d <= len)%nat ->
       (8 * (len - currentPosition d) + 1 <= fuel)%nat ->
       exists r, addSubLoop str fuel v d = Some r) /\
    (forall d, (currentPosition d <= len)%nat ->
       (8 * (len - currentPosition d) + 4 <= fuel)%nat ->
       exists r, parseMulDiv str fuel d = Some r) /\
    (forall v d, (currentPosition d <= len)%nat ->
       (8 * (len - currentPosition d) + 1 <= fuel)%nat ->
       exists r, mulDivLoop str fuel v d = Some r) /\
    (forall d, (currentPosition d <= len)%nat ->
       (8 * (len - currentPosition d) + 3 <= fuel)%nat ->
       exists r, parseExponent str fuel d = Some r) /\
    (forall d, (currentPosition d <= len)%nat ->
       (8 * (len - currentPosition d) + 2 <= fuel)%nat ->
       exists r, parseUnaryMinus str fuel d = Some r) /\
    (forall d, (currentPosition d <= len)%nat ->
       (8 * (len - currentPosition d) + 1 <= fuel)%nat ->
       exists r, parseParentheses str fuel d = Some r).
Proof.
  induction fuel as [|fuel IH].
  { repeat apply conj; intros; lia. }
  destruct IH as (IHas & IHasl & IHmd & IHmdl & IHex & IHum & IHpa).
  destruct (tiers_within str fuel)
    as (Was & Wasl & Wmd & Wmdl & Wex & Wum & Wpa).
  unfold within in *.
  repeat apply conj.
  - intros d Hd Hf. rewrite parseAddSubtract_eq.
    destruct (IHmd d Hd ltac:(lia)) as [[r1 d1] E]. rewrite E.
    pose proof (Wmd _ _ _ E Hd).
    destruct (failed d1); [eauto|]. apply IHasl; lia.
  - intros v d Hd Hf. rewrite addSubLoop_eq. cbv zeta.
    pose proof (skipWs_within str d Hd) as Hs. unfold within in Hs.
    destruct (negb _ && negb _) eqn:Hg; [eauto|].
    apply guard2_inside in Hg; [|discriminate|discriminate].
    assert (Ha : (currentPosition (advance (skipWs str d)) <= len)%nat)
      by (pos_simpl; lia).
    destruct (IHmd _ Ha ltac:(pos_simpl; lia)) as [[r2 d2] E]. rewrite E.
    pose proof (Wmd _ _ _ E Ha). pos_simpl.
    destruct (failed d2); [eauto|].
    destruct (_ =? "+")%char; apply IHasl; lia.
  - intros d Hd Hf. rewrite parseMulDiv_eq.
    destruct (IHex d Hd ltac:(lia)) as [[r1 d1] E]. rewrite E.
    pose proof (Wex _ _ _ E Hd).
    destruct (failed d1); [eauto|]. apply IHmdl; lia.
  - intros v d Hd Hf. rewrite mulDivLoop_eq. cbv zeta.
    pose proof (skipWs_within str d Hd) as Hs. unfold within in Hs.
    destruct (negb _ && negb _) eqn:Hg; [eauto|].
    apply guard2_inside in Hg; [|discriminate|discriminate].
    assert (Ha : (currentPosition (advance (skipWs str d)) <= len)%nat)
      by (pos_simpl; lia).
    destruct (IHex _ Ha ltac:(pos_simpl; lia)) as [[r2 d2] E]. rewrite E.
    pose proof (Wex _ _ _ E Ha). pos_simpl.
    destruct (failed d2); [eauto|].
    destruct (_ =? "*")%char; [apply IHmdl; lia|].
    destruct (r2 =? 0); [eauto|]. apply IHmdl; lia.
  - intros d Hd Hf. rewrite parseExponent_eq.
    destruct (IHum d Hd ltac:(lia)) as [[r1 d1] E]. rewrite E.
    pose proof (Wum _ _ _ E Hd) as Hw.
    destruct (failed d1); [eauto|]. cbv zeta.
    pose proof (skipWs_within str d1 ltac:(lia)) as Hs. unfold within in Hs.
    destruct (negb _) eqn:Hg; [eauto|].
    apply guard1_inside in Hg; [|discriminate].
    assert (Ha : (currentPosition (advance (skipWs str d1)) <= len)%nat)
      by (pos_simpl; lia).
    destruct (IHex _ Ha ltac:(pos_simpl; lia)) as [[r2 d2] E2]. rewrite E2.
    destruct (failed d2); eauto.
  - intros d Hd Hf. rewrite parseUnaryMinus_eq. cbv zeta.
    pose proof (skipWs_within str d Hd) as Hs. unfold within in Hs.
    destruct (current str (skipWs str d) =? "-")%char eqn:Hm.
    + apply charAt_eqb_inside in Hm; [|discriminate].
      assert (Ha : (currentPosition (advance (skipWs str d)) <= len)%nat)
        by (pos_simpl; lia).
      destruct (IHpa _ Ha ltac:(pos_simpl; lia)) as [[r1 d1] E]. rewrite E.
      eauto.
    + destruct (IHpa (skipWs str d) ltac:(lia) ltac:(lia)) as [[r1 d1] E].
      rewrite E. eauto.
  - intros d Hd Hf. rewrite parseParentheses_eq. cbv zeta.
    pose proof (skipWs_within str d Hd) as Hs. unfold within in Hs.
    destruct (negb _) eqn:Hg; [eauto|].
    apply guard1_inside in Hg; [|discriminate].
    assert (Ha : (currentPosition (advance (skipWs str d)) <= len)%nat)
      by (pos_simpl; lia).
    destruct (IHas _ Ha ltac:(pos_simpl; lia)) as [[r1 d1] E]. rewrite E.
    destruct (negb _); eauto.
Qed.

End Fuel.

(** ** 64-bit arithmetic *)

Lemma wrap_range (z : Z) : inRange (wrap z).
Proof.
  unfold inRange, wrap, LLONG_MIN, LLONG_MAX.
  pose proof (Z.mod_pos_bound (z + 2 ^ 63) (2 ^ 64) ltac:(lia)). lia.
Qed.

Lemma wrap_id (z : Z) : inRange z -> wrap z = z.
Proof.
  unfold inRange, wrap, LLONG_MIN, LLONG_MAX. intros H.
  rewrite Z.mod_small; lia.
Qed.

Lemma wrap_mul_l (a b : Z) : wrap (wrap a * b) = wrap (a * b).
Proof.
  unfold wrap. f_equal.
  pose proof (Z.div_mod (a + 2 ^ 63) (2 ^ 64) ltac:(lia)) as Hdm.
  set (k := (a + 2 ^ 63) / 2 ^ 64) in *.
  replace (((a + 2 ^ 63) mod 2 ^ 64 - 2 ^ 63) * b + 2 ^ 63)
    with (a * b + 2 ^ 63 + (- k * b) * 2 ^ 64) by lia.
  apply Z_mod_plus_full.
Qed.

Lemma clamp_range (z : Z) : inRange (clamp z).
Proof.
  unfold clamp, inRange, LLONG_MIN, LLONG_MAX.
  destruct (z <? - 2 ^ 63) eqn:H1; [lia|].
  destruct (2 ^ 63 - 1 <? z) eqn:H2; lia.
Qed.

Lemma inRange_0 : inRange 0.
Proof. unfold inRange, LLONG_MIN, LLONG_MAX. lia. Qed.

Lemma inRange_1 : inRange 1.
Proof. unfold inRange, LLONG_MIN, LLONG_MAX. lia. Qed.

(** The multiplication loop of [parseExponent] computes a power. *)
Lemma powLoop_spec (b : Z) :
  forall n e r,
    inRange r -> 0 < e -> (Z.to_nat e <= n)%nat ->
    powLoop n e r b = wrap (r * b ^ (e - 1)).
Proof.
  induction n as [|n IH]; intros e r Hr He Hn.
  - lia.
  - simpl. destruct (e - 1 =? 0) eqn:E.
    + apply Z.eqb_eq in E. rewrite E, Z.pow_0_r, Z.mul_1_r.
      symmetry. now apply wrap_id.
    + apply Z.eqb_neq in E.
      rewrite IH; [|apply wrap_range|lia|lia].
      rewrite wrap_mul_l. f_equal.
      replace (e - 1) with (Z.succ (e - 1 - 1)) at 2 by lia.
      rewrite Z.pow_succ_r by lia. lia.
Qed.

Lemma powLoop_range (b : Z) :
  forall n e r, inRange r -> inRange (powLoop n e r b).
Proof.
  induction n as [|n IH]; intros e r Hr; simpl.
  - exact Hr.
  - destruct (e - 1 =? 0); [exact Hr|]. apply IH, wrap_range.
Qed.

Lemma raise_range (b e : Z) (d : ParseData) :
  inRange b -> inRange (fst (raise b e d)).
Proof.
  intros Hb. unfold raise.
  destruct (e =? 0); [apply inRange_1|].
  destruct ((e <? 0) && (b =? 0)); [apply inRange_0|].
  destruct (e <? 0); [apply inRange_0|].
  simpl. now apply powLoop_range.
Qed.

Lemma strtoll_range (str : string) (nptr : nat) :
  inRange (fst (strtoll str nptr)).
Proof.
  unfold strtoll.
  destruct (scanDigits _ str _ 0) as [acc endPtr].
  destruct (Nat.eqb endPtr _); simpl; [apply inRange_0|apply clamp_range].
Qed.

Lemma parseValue_range (str : string) (d : ParseData) :
  inRange (fst (parseValue str d)).
Proof.
  unfold parseValue.
  pose proof (strtoll_range str (currentPosition (skipWs str d))) as H.
  destruct (strtoll str (currentPosition (skipWs str d))) as [v e].
  exact H.
Qed.

(** ** Every value a tier returns is a [long long] *)

Lemma tiers_range (str : string) :
  forall fuel,
    (forall d v d', parseAddSubtract str fuel d = Some (v, d') -> inRange v) /\
    (forall r d v d', addSubLoop str fuel r d = Some (v, d') ->
       inRange r -> inRange v) /\
    (forall d v d', parseMulDiv str fuel d = Some (v, d') -> inRange v) /\
    (forall r d v d', mulDivLoop str fuel r d = Some (v, d') ->
       inRange r -> inRange v) /\
    (forall d v d', parseExponent str fuel d = Some (v, d') -> inRange v) /\
    (forall d v d', parseUnaryMinus str fuel d = Some (v, d') -> inRange v) /\
    (forall d v d', parseParentheses str fuel d = Some (v, d') -> inRange v).
Proof.
  induction fuel as [|fuel IH].
  { repeat apply conj; intros; discriminate. }
  destruct IH as (IHas & IHasl & IHmd & IHmdl & IHex & IHum & IHpa).
  repeat apply conj.
  - intros d v d' H. rewrite parseAddSubtract_eq in H.
    open_call r1 d1 Hcall. apply IHmd in Hcall.
    open_if; [close_some; assumption|]. eapply IHasl; eassumption.
  - intros r d v d' H Hr. rewrite addSubLoop_eq in H. cbv zeta in H.
    open_if; [close_some; assumption|].
    open_call r2 d2 Hcall.
    open_if; [close_some; assumption|].
    open_if; eapply IHasl; try eassumption; apply wrap_range.
  - intros d v d' H. rewrite parseMulDiv_eq in H.
    open_call r1 d1 Hcall. apply IHex in Hcall.
    open_if; [close_some; apply inRange_0|]. eapply IHmdl; eassumption.
  - intros r d v d' H Hr. rewrite mulDivLoop_eq in H. cbv zeta in H.
    open_if; [close_some; assumption|].
    open_call r2 d2 Hcall.
    open_if; [close_some; apply inRange_0|].
    open_if; [eapply IHmdl; try eassumption; apply wrap_range|].
    open_if; [close_some; apply inRange_0|].
    eapply IHmdl; try eassumption; apply wrap_range.
  - intros d v d' H. rewrite parseExponent_eq in H.
    open_call r1 d1 Hcall. apply IHum in Hcall.
    open_if; [close_some; assumption|]. cbv zeta in H.
    open_if; [close_some; assumption|].
    open_call r2 d2 Hcall2.
    open_if; [close_some; assumption|].
    close_some. pose proof (raise_range r1 r2 d2 Hcall) as Hr.
    rewrite H1 in Hr. exact Hr.
  - intros d v d' H. rewrite parseUnaryMinus_eq in H. cbv zeta in H.
    open_call r1 d1 Hcall. apply IHpa in Hcall. close_some.
    destruct (_ =? "-")%char; [apply wrap_range|assumption].
  - intros d v d' H. rewrite parseParentheses_eq in H. cbv zeta in H.
    open_if.
    + close_some. pose proof (parseValue_range str (skipWs str d)) as Hr.
      rewrite H1 in Hr. exact Hr.
    + open_call r1 d1 Hcall. apply IHas in Hcall.
      open_if; close_some; [apply inRange_0|assumption].
Qed.

(** ** The driver returns, and its result does not depend on the fuel *)

Lemma parseAddSubtract_total (str : string) (fuel : nat) :
  (parseFuel str <= fuel)%nat ->
  exists v d, parseAddSubtract str fuel initialData = Some (v, d).
Proof.
  intros Hf. destruct (tiers_total str fuel) as (Has & _).
  destruct (Has initialData) as [[v d] E]; unfold parseFuel in *; simpl; try lia.
  eauto.
Qed.

Lemma parseInputString_total (str : string) (fuel : nat) :
  (parseFuel str <= fuel)%nat ->
  exists v d, parseInputString str fuel initialData = Some (v, d).
Proof.
  intros Hf. unfold parseInputString.
  destruct (parseAddSubtract_total str fuel Hf) as (v & d & E). rewrite E.
  destruct (failed d); eauto.
Qed.

Lemma parse_total (str : string) : exists v d, parse str = Some (v, d).
Proof. apply parseInputString_total. lia. Qed.

Lemma parseInputString_fuel_mono (str : string) (fuel fuel' : nat)
  (d : ParseData) (r : ValueType * ParseData) :
  parseInputString str fuel d = Some r -> (fuel <= fuel')%nat ->
  parseInputString str fuel' d = Some r.
Proof.
  unfold parseInputString. intros H Hle.
  open_call v d1 Hcall.
  destruct (tiers_fuel_mono str fuel) as (Has & _).
  now rewrite (Has _ _ Hcall _ Hle).
Qed.

Lemma parse_fuel_irrelevant (str : string) (fuel : nat)
  (r : ValueType * ParseData) :
  parseInputString str fuel initialData = Some r -> parse str = Some r.
Proof.
  intros H. unfold parse.
  destruct (Nat.le_ge_cases fuel (parseFuel str)) as [Hle|Hge].
  - eapply parseInputString_fuel_mono; eassumption.
  - destruct (parse_total str) as (v & d & E). unfold parse in E.
    rewrite E. rewrite (parseInputString_fuel_mono _ _ _ _ _ E Hge) in H.
    exact H.
Qed.

(** * Properties of the parser *)

Local Open Scope string_scope.
Local Open Scope Z_scope.

(** C1. The description says that once an error is recorded, nothing changes
    the error kind or moves the cursor, so that the caret of the diagnostic
    stands at the offset of the failure.  [parseParentheses] does not test
    the error after its call of [parseAddSubtract]: on ["(5/0)"] the division
    fails with the cursor at offset 4, the closing parenthesis is then
    consumed and the caret is printed at offset 5; on ["(1+"] the syntax
    error recorded at offset 3 is replaced by the missing-parenthesis
    error. *)
Theorem parseParentheses_continues_after_error :
  parseAddSubtract "(5/0)" 40 {| currentPosition := 1;
                                 errorCode := ParseError_None |}
  = Some (0, {| currentPosition := 4; errorCode := ParseError_Div0 |}) /\
  parse "(5/0)"
  = Some (0, {| currentPosition := 5; errorCode := ParseError_Div0 |}) /\
  printErrorMsg "(5/0)" {| currentPosition := 5; errorCode := ParseError_Div0 |}
  = Some ("(5/0)" ++ newline ++ "     ^" ++ newline ++
          "Division by 0" ++ newline, 1) /\
  parseAddSubtract "(1+" 40 {| currentPosition := 1;
                               errorCode := ParseError_None |}
  = Some (1, {| currentPosition := 3; errorCode := ParseError_Syntax |}) /\
  parse "(1+"
  = Some (0, {| currentPosition := 3;
                errorCode := ParseError_NoClosingParenthesis |}).
Proof. repeat split; vm_compute; reflexivity. Qed.

Lemma spaces_length (n : nat) : String.length (spaces n) = n.
Proof. induction n as [|n IH]; simpl; congruence. Qed.

Lemma get_after_spaces (n : nat) (s : string) :
  String.get n (spaces n ++ s) = String.get 0 s.
Proof. induction n as [|n IH]; simpl; [reflexivity|exact IH]. Qed.

(** The caret of the diagnostic stands, in the second line, in the column
    of the final cursor position. *)
Lemma printErrorMsg_caret (str : string) (data : ParseData)
  (out : string) (r : Z) :
  printErrorMsg str data = Some (out, r) ->
  String.get (currentPosition data + 1 + String.length str) out
  = Some "^"%char.
Proof.
  unfold printErrorMsg.
  destruct (errorMessages (errorCode data)) as [msg|]; [|discriminate].
  intros H. injection H as Hout _. subst out.
  rewrite <- append_correct2, Nat.add_1_r.
  unfold newline at 1. cbn [append String.get].
  now rewrite get_after_spaces.
Qed.

(** What the tiers do when a call for an operand returns with the error
    set: [parseAddSubtract], [parseMulDiv], [parseExponent] and
    [parseInputString] test the error and return at once, with the state as
    the call left it and without applying their operator;
    [parseUnaryMinus] has no such test and, after a ['-'], negates whatever
    [parseParentheses] returned. *)
Theorem tiers_return_on_downstream_error
  (str : string) (fuel : nat) (d : ParseData) :
  (forall r d1,
     parseMulDiv str fuel d = Some (r, d1) -> failed d1 = true ->
     parseAddSubtract str (S fuel) d = Some (r, d1)) /\
  (forall acc r2 d2,
     current str (skipWs str d) = "+"%char \/
     current str (skipWs str d) = "-"%char ->
     parseMulDiv str fuel (advance (skipWs str d)) = Some (r2, d2) ->
     failed d2 = true ->
     addSubLoop str (S fuel) acc d = Some (acc, d2)) /\
  (forall r d1,
     parseExponent str fuel d = Some (r, d1) -> failed d1 = true ->
     parseMulDiv str (S fuel) d = Some (0, d1)) /\
  (forall acc r2 d2,
     current str (skipWs str d) = "*"%char \/
     current str (skipWs str d) = "/"%char ->
     parseExponent str fuel (advance (skipWs str d)) = Some (r2, d2) ->
     failed d2 = true ->
     mulDivLoop str (S fuel) acc d = Some (0, d2)) /\
  (forall r d1,
     parseUnaryMinus str fuel d = Some (r, d1) -> failed d1 = true ->
     parseExponent str (S fuel) d = Some (r, d1)) /\
  (forall b d1 e d2,
     parseUnaryMinus str fuel d = Some (b, d1) -> failed d1 = false ->
     current str (skipWs str d1) = "^"%char ->
     parseExponent str fuel (advance (skipWs str d1)) = Some (e, d2) ->
     failed d2 = true ->
     parseExponent str (S fuel) d = Some (b, d2)) /\
  (forall r d1,
     parseAddSubtract str fuel d = Some (r, d1) -> failed d1 = true ->
     parseInputString str fuel d = Some (0, d1)) /\
  (forall r d1,
     current str (skipWs str d) = "-"%char ->
     parseParentheses str fuel (advance (skipWs str d)) = Some (r, d1) ->
     parseUnaryMinus str (S fuel) d = Some (wrap (- r), d1)).
Proof.
  repeat apply conj.
  - intros r d1 E F. now rewrite parseAddSubtract_eq, E, F.
  - intros acc r2 d2 Hc E F. rewrite addSubLoop_eq. cbv zeta.
    rewrite E, F. now destruct Hc as [-> | ->].
  - intros r d1 E F. now rewrite parseMulDiv_eq, E, F.
  - intros acc r2 d2 Hc E F. rewrite mulDivLoop_eq. cbv zeta.
    rewrite E, F. now destruct Hc as [-> | ->].
  - intros r d1 E F. now rewrite parseExponent_eq, E, F.
  - intros b d1 e d2 E1 F1 Hc E2 F2. rewrite parseExponent_eq, E1, F1.
    cbv zeta. now rewrite Hc, E2, F2.
  - intros r d1 E F. unfold parseInputString. now rewrite E, F.
  - intros r d1 Hc E. rewrite parseUnaryMinus_eq. cbv zeta.
    now rewrite Hc, Ascii.eqb_refl, E.
Qed.

Lemma tiers_return_on_downstream_error_witness :
  parseAddSubtract "2*x+1" 31 initialData
  = Some (0, {| currentPosition := 2; errorCode := ParseError_Syntax |}) /\
  addSubLoop "1+x" 31 1 {| currentPosition := 1; errorCode := ParseError_None |}
  = Some (1, {| currentPosition := 2; errorCode := ParseError_Syntax |}) /\
  parseMulDiv "x" 31 initialData
  = Some (0, {| currentPosition := 0; errorCode := ParseError_Syntax |}) /\
  mulDivLoop "2*x" 31 2 {| currentPosition := 1; errorCode := ParseError_None |}
  = Some (0, {| currentPosition := 2; errorCode := ParseError_Syntax |}) /\
  parseExponent "x" 31 initialData
  = Some (0, {| currentPosition := 0; errorCode := ParseError_Syntax |}) /\
  parseExponent "2^x" 31 initialData
  = Some (2, {| currentPosition := 2; errorCode := ParseError_Syntax |}) /\
  parseInputString "x" 30 initialData
  = Some (0, {| currentPosition := 0; errorCode := ParseError_Syntax |}) /\
  parseUnaryMinus "-(5+)" 31 initialData
  = Some (wrap (- 5),
          {| currentPosition := 5; errorCode := ParseError_Syntax |}).
Proof.
  repeat apply conj.
  - apply (proj1 (tiers_return_on_downstream_error "2*x+1" 30 initialData));
      reflexivity.
  - apply (proj1 (proj2 (tiers_return_on_downstream_error "1+x" 30
             {| currentPosition := 1; errorCode := ParseError_None |}))
             1 0);
      [left; reflexivity|reflexivity|reflexivity].
  - apply (proj1 (proj2 (proj2
             (tiers_return_on_downstream_error "x" 30 initialData))) 0);
      reflexivity.
  - apply (proj1 (proj2 (proj2 (proj2
             (tiers_return_on_downstream_error "2*x" 30
                {| currentPosition := 1; errorCode := ParseError_None |}))))
             2 0);
      [left; reflexivity|reflexivity|reflexivity].
  - apply (proj1 (proj2 (proj2 (proj2 (proj2
             (tiers_return_on_downstream_error "x" 30 initialData))))));
      reflexivity.
  - apply (proj1 (proj2 (proj2 (proj2 (proj2 (proj2
             (tiers_return_on_downstream_error "2^x" 30 initialData))))))
             2 {| currentPosition := 1; errorCode := ParseError_None |} 0);
      reflexivity.
  - apply (proj1 (proj2 (proj2 (proj2 (proj2 (proj2 (proj2
             (tiers_return_on_downstream_error "x" 30 initialData))))))) 0);
      reflexivity.
  - apply (proj2 (proj2 (proj2 (proj2 (proj2 (proj2 (proj2
             (tiers_return_on_downstream_error "-(5+)" 30 initialData)))))))
             5);
      reflexivity.
Defined.

(** C2. The description says that a tier whose operand call returns with
    the error set returns at once without applying its operator, and that
    the unary-minus parser negates only if no error occurred downstream.
    [parseUnaryMinus] does not test the error before its operator, as
    [parseAddSubtract], [parseMulDiv] and [parseExponent] do before theirs:
    on ["-(5+)"] the parenthesis parser returns 5 with [ParseError_Syntax]
    set and [parseUnaryMinus] returns -5. *)
Lemma unary_minus_negates_under_error :
  parseParentheses "-(5+)" 30 {| currentPosition := 1;
                                 errorCode := ParseError_None |}
  = Some (5, {| currentPosition := 5; errorCode := ParseError_Syntax |}) /\
  parseUnaryMinus "-(5+)" 31 initialData
  = Some (-5, {| currentPosition := 5; errorCode := ParseError_Syntax |}).
Proof. split; vm_compute; reflexivity. Qed.

(** The power [b ^ e] is the product of [e] copies of [b]. *)
Lemma pow_as_product (b e : Z) :
  0 <= e -> b ^ e = fold_right Z.mul 1 (repeat b (Z.to_nat e)).
Proof.
  intros He. rewrite <- (Z2Nat.id e) at 1 by exact He.
  induction (Z.to_nat e) as [|n IH]; [reflexivity|].
  rewrite Nat2Z.inj_succ, Z.pow_succ_r by lia. simpl. now rewrite IH.
Qed.

Lemma raise_positive (b e : Z) (d : ParseData) :
  inRange b -> 0 < e -> raise b e d = (wrap (b ^ e), d).
Proof.
  intros Hb He. unfold raise.
  destruct (e =? 0) eqn:E0; [apply Z.eqb_eq in E0; lia|].
  destruct (e <? 0) eqn:E1; [apply Z.ltb_lt in E1; lia|].
  simpl. f_equal.
  rewrite powLoop_spec; [|assumption|assumption|lia].
  f_equal. replace e with (Z.succ (e - 1)) at 2 by lia.
  now rewrite Z.pow_succ_r by lia.
Qed.

(** C3. With base [b] and exponent [e] both parsed without error,
    [parseExponent] returns 1 when [e = 0] (whatever [b]), records
    [ParseError_Div0] when [e < 0] and [b = 0], returns 0 when [e < 0] and
    [b <> 0], and returns the product of [e] copies of [b], as a
    [long long], when [e > 0]: exactly [b ^ e] when that fits.  So ["0^0"]
    and ["5^0"] give 1, ["2^-1"] gives 0 and ["2^5^2"] gives [2 ^ 25]. *)
Theorem exponent_policy :
  (forall str fuel d b d1 e d2,
     parseUnaryMinus str fuel d = Some (b, d1) -> failed d1 = false ->
     current str (skipWs str d1) = "^"%char ->
     parseExponent str fuel (advance (skipWs str d1)) = Some (e, d2) ->
     failed d2 = false ->
     (e = 0 -> parseExponent str (S fuel) d = Some (1, d2)) /\
     (e < 0 -> b = 0 ->
      parseExponent str (S fuel) d
      = Some (0, setError d2 ParseError_Div0)) /\
     (e < 0 -> b <> 0 -> parseExponent str (S fuel) d = Some (0, d2)) /\
     (0 < e ->
      parseExponent str (S fuel) d
      = Some (wrap (fold_right Z.mul 1 (repeat b (Z.to_nat e))), d2)) /\
     (0 < e -> inRange (b ^ e) ->
      parseExponent str (S fuel) d = Some (b ^ e, d2))) /\
  parse "0^0"
  = Some (1, {| currentPosition := 3; errorCode := ParseError_None |}) /\
  parse "5^0"
  = Some (1, {| currentPosition := 3; errorCode := ParseError_None |}) /\
  parse "2^-1"
  = Some (0, {| currentPosition := 4; errorCode := ParseError_None |}) /\
  parse "2^5^2"
  = Some (2 ^ 25, {| currentPosition := 5; errorCode := ParseError_None |}).
Proof.
  split; [|repeat split; vm_compute; reflexivity].
  intros str fuel d b d1 e d2 E1 F1 Hc E2 F2.
  assert (Hb : inRange b).
  { destruct (tiers_range str fuel) as (_ & _ & _ & _ & _ & Hum & _).
    eapply Hum; eassumption. }
  assert (Heq : parseExponent str (S fuel) d = Some (raise b e d2)).
  { rewrite parseExponent_eq, E1, F1. cbv zeta. now rewrite Hc, E2, F2. }
  rewrite Heq. repeat apply conj.
  - intros ->. reflexivity.
  - intros He ->. unfold raise.
    destruct (e =? 0) eqn:E0; [apply Z.eqb_eq in E0; lia|].
    apply Z.ltb_lt in He. now rewrite He.
  - intros He Hb0. unfold raise.
    destruct (e =? 0) eqn:E0; [apply Z.eqb_eq in E0; lia|].
    apply Z.ltb_lt in He. apply Z.eqb_neq in Hb0. now rewrite He, Hb0.
  - intros He. rewrite raise_positive by assumption.
    now rewrite pow_as_product by lia.
  - intros He Hr. rewrite raise_positive by assumption.
    now rewrite wrap_id.
Qed.

Lemma exponent_policy_witness :
  parseExponent "5^0" 21 initialData
  = Some (1, {| currentPosition := 3; errorCode := ParseError_None |}) /\
  parseExponent "0^-1" 21 initialData
  = Some (0, {| currentPosition := 4; errorCode := ParseError_Div0 |}) /\
  parseExponent "2^-1" 21 initialData
  = Some (0, {| currentPosition := 4; errorCode := ParseError_None |}) /\
  parseExponent "2^5" 21 initialData
  = Some (wrap (fold_right Z.mul 1 (repeat 2 5)),
          {| currentPosition := 3; errorCode := ParseError_None |}) /\
  parseExponent "2^5" 21 initialData
  = Some (2 ^ 5, {| currentPosition := 3; errorCode := ParseError_None |}).
Proof.
  pose (at1 := {| currentPosition := 1; errorCode := ParseError_None |}).
  pose (at3 := {| currentPosition := 3; errorCode := ParseError_None |}).
  pose (at4 := {| currentPosition := 4; errorCode := ParseError_None |}).
  repeat apply conj.
  - apply (proj1 (proj1 exponent_policy "5^0" 20%nat initialData 5 at1 0 at3
                    eq_refl eq_refl eq_refl eq_refl eq_refl)).
    reflexivity.
  - apply (proj1 (proj2 (proj1 exponent_policy "0^-1" 20%nat initialData
                    0 at1 (-1) at4
                    eq_refl eq_refl eq_refl eq_refl eq_refl)));
      reflexivity.
  - apply (proj1 (proj2 (proj2 (proj1 exponent_policy "2^-1" 20%nat
                    initialData 2 at1 (-1) at4
                    eq_refl eq_refl eq_refl eq_refl eq_refl))));
      [reflexivity|discriminate].
  - apply (proj1 (proj2 (proj2 (proj2 (proj1 exponent_policy "2^5" 20%nat
                    initialData 2 at1 5 at3
                    eq_refl eq_refl eq_refl eq_refl eq_refl))))).
    reflexivity.
  - apply (proj2 (proj2 (proj2 (proj2 (proj1 exponent_policy "2^5" 20%nat
                    initialData 2 at1 5 at3
                    eq_refl eq_refl eq_refl eq_refl eq_refl))))).
    + reflexivity.
    + unfold inRange, LLONG_MIN, LLONG_MAX. lia.
Defined.

(** Three operands of [parseAddSubtract] with two operators between them:
    the first operator is applied before the second operand of the second
    operator is looked at. *)
Lemma addSubtract_folds_left
  (str : string) (fuel : nat) (d : ParseData)
  (a b c : ValueType) (d1 d2 d3 : ParseData) :
  parseMulDiv str fuel d = Some (a, d1) -> failed d1 = false ->
  current str (skipWs str d1) = "+"%char \/
  current str (skipWs str d1) = "-"%char ->
  parseMulDiv str fuel (advance (skipWs str d1)) = Some (b, d2) ->
  failed d2 = false ->
  current str (skipWs str d2) = "+"%char \/
  current str (skipWs str d2) = "-"%char ->
  parseMulDiv str fuel (advance (skipWs str d2)) = Some (c, d3) ->
  failed d3 = false ->
  current str (skipWs str d3) <> "+"%char ->
  current str (skipWs str d3) <> "-"%char ->
  parseAddSubtract str (S (S (S (S fuel)))) d
  = Some (wrap ((if (current str (skipWs str d2) =? "+")%char
                 then Z.add else Z.sub)
                  (wrap ((if (current str (skipWs str d1) =? "+")%char
                          then Z.add else Z.sub) a b))
                  c),
          skipWs str d3).
Proof.
  intros E1 F1 Hop1 E2 F2 Hop2 E3 F3 Hn1 Hn2.
  destruct (tiers_fuel_mono str fuel) as (_ & _ & Mmd & _).
  rewrite parseAddSubtract_eq.
  rewrite (Mmd _ _ E1 (S (S (S fuel))) ltac:(lia)), F1.
  rewrite addSubLoop_eq. cbv zeta.
  rewrite (Mmd _ _ E2 (S (S fuel)) ltac:(lia)), F2.
  assert (G1 : negb (current str (skipWs str d1) =? "+")%char
               && negb (current str (skipWs str d1) =? "-")%char = false)
    by (destruct Hop1 as [-> | ->]; reflexivity).
  rewrite G1.
  assert (Step2 :
    forall acc,
      addSubLoop str (S (S fuel)) acc d2
      = Some (wrap ((if (current str (skipWs str d2) =? "+")%char
                     then Z.add else Z.sub) acc c), skipWs str d3)).
  { intros acc. rewrite addSubLoop_eq. cbv zeta.
    rewrite (Mmd _ _ E3 (S fuel) ltac:(lia)), F3.
    assert (G2 : negb (current str (skipWs str d2) =? "+")%char
                 && negb (current str (skipWs str d2) =? "-")%char = false)
      by (destruct Hop2 as [-> | ->]; reflexivity).
    rewrite G2.
    assert (Exit : forall acc', addSubLoop str (S fuel) acc' d3
                                = Some (acc', skipWs str d3)).
    { intros acc'. rewrite addSubLoop_eq. cbv zeta.
      apply Ascii.eqb_neq in Hn1. apply Ascii.eqb_neq in Hn2.
      now rewrite Hn1, Hn2. }
    destruct (current str (skipWs str d2) =? "+")%char; apply Exit. }
  destruct (current str (skipWs str d1) =? "+")%char; apply Step2.
Qed.

(** The same for [parseMulDiv], where no division is by zero. *)
Lemma mulDiv_folds_left
  (str : string) (fuel : nat) (d : ParseData)
  (a b c : ValueType) (d1 d2 d3 : ParseData) :
  parseExponent str fuel d = Some (a, d1) -> failed d1 = false ->
  current str (skipWs str d1) = "*"%char \/
  current str (skipWs str d1) = "/"%char /\ b <> 0 ->
  parseExponent str fuel (advance (skipWs str d1)) = Some (b, d2) ->
  failed d2 = false ->
  current str (skipWs str d2) = "*"%char \/
  current str (skipWs str d2) = "/"%char /\ c <> 0 ->
  parseExponent str fuel (advance (skipWs str d2)) = Some (c, d3) ->
  failed d3 = false ->
  current str (skipWs str d3) <> "*"%char ->
  current str (skipWs str d3) <> "/"%char ->
  parseMulDiv str (S (S (S (S fuel)))) d
  = Some (wrap ((if (current str (skipWs str d2) =? "*")%char
                 then Z.mul else Z.quot)
                  (wrap ((if (current str (skipWs str d1) =? "*")%char
                          then Z.mul else Z.quot) a b))
                  c),
          skipWs str d3).
Proof.
  intros E1 F1 Hop1 E2 F2 Hop2 E3 F3 Hn1 Hn2.
  destruct (tiers_fuel_mono str fuel) as (_ & _ & _ & _ & Mex & _).
  rewrite parseMulDiv_eq.
  rewrite (Mex _ _ E1 (S (S (S fuel))) ltac:(lia)), F1.
  rewrite mulDivLoop_eq. cbv zeta.
  rewrite (Mex _ _ E2 (S (S fuel)) ltac:(lia)), F2.
  assert (G1 : negb (current str (skipWs str d1) =? "*")%char
               && negb (current str (skipWs str d1) =? "/")%char = false)
    by (destruct Hop1 as [-> | [-> _]]; reflexivity).
  rewrite G1.
  assert (Step2 :
    forall acc,
      mulDivLoop str (S (S fuel)) acc d2
      = Some (wrap ((if (current str (skipWs str d2) =? "*")%char
                     then Z.mul else Z.quot) acc c), skipWs str d3)).
  { intros acc. rewrite mulDivLoop_eq. cbv zeta.
    rewrite (Mex _ _ E3 (S fuel) ltac:(lia)), F3.
    assert (G2 : negb (current str (skipWs str d2) =? "*")%char
                 && negb (current str (skipWs str d2) =? "/")%char = false)
      by (destruct Hop2 as [-> | [-> _]]; reflexivity).
    rewrite G2.
    assert (Exit : forall acc', mulDivLoop str (S fuel) acc' d3
                                = Some (acc', skipWs str d3)).
    { intros acc'. rewrite mulDivLoop_eq. cbv zeta.
      apply Ascii.eqb_neq in Hn1. apply Ascii.eqb_neq in Hn2.
      now rewrite Hn1, Hn2. }
    destruct Hop2 as [-> | [-> Hc]]; cbn [Ascii.eqb Bool.eqb];
      [apply Exit|].
    apply Z.eqb_neq in Hc. rewrite Hc. apply Exit. }
  destruct Hop1 as [-> | [-> Hb]]; cbn [Ascii.eqb Bool.eqb];
    [apply Step2|].
  apply Z.eqb_neq in Hb. rewrite Hb. apply Step2.
Qed.

(** Three operands of [parseExponent]: the second operator is applied
    first, and its result is the exponent of the first. *)
Lemma exponent_groups_right
  (str : string) (fuel : nat) (d : ParseData)
  (a b c : ValueType) (d1 d2 d3 : ParseData) :
  parseUnaryMinus str fuel d = Some (a, d1) -> failed d1 = false ->
  current str (skipWs str d1) = "^"%char ->
  parseUnaryMinus str fuel (advance (skipWs str d1)) = Some (b, d2) ->
  failed d2 = false ->
  current str (skipWs str d2) = "^"%char ->
  parseExponent str fuel (advance (skipWs str d2)) = Some (c, d3) ->
  failed d3 = false ->
  failed (snd (raise b c d3)) = false ->
  parseExponent str (S (S fuel)) d
  = Some (raise a (fst (raise b c d3)) (snd (raise b c d3))).
Proof.
  intros E1 F1 Hop1 E2 F2 Hop2 E3 F3 Fin.
  destruct (tiers_fuel_mono str fuel) as (_ & _ & _ & _ & _ & Mum & _).
  assert (Inner : parseExponent str (S fuel) (advance (skipWs str d1))
                  = Some (raise b c d3)).
  { rewrite parseExponent_eq, E2, F2. cbv zeta. now rewrite Hop2, E3, F3. }
  rewrite parseExponent_eq, (Mum _ _ E1 (S fuel) ltac:(lia)), F1.
  cbv zeta. rewrite Hop1, Inner.
  destruct (raise b c d3) as [e' d3']. cbn [fst snd] in *.
  now rewrite Fin.
Qed.

(** C4. [parseAddSubtract] and [parseMulDiv] fold their operators from the
    left: with operands [a], [b], [c] and two operators of the tier between
    them the value is [(a op1 b) op2 c], each loop combining the accumulated
    value with an operand as soon as it is parsed.  [parseExponent] groups
    from the right: its right operand is parsed by [parseExponent] itself,
    so the value of [a ^ b ^ c] is [a ^ (b ^ c)].  ["1-2+3"] is (1-2)+3 = 2,
    ["8/4/2"] is (8/4)/2 = 1, ["100/10*2"] is (100/10)*2 = 20, and
    ["2^3^2"] is 2^(3^2) = 512, ["2^2^3"] is 2^(2^3) = 256. *)
Theorem associativity_examples :
  (forall str fuel acc d r2 d2,
     current str (skipWs str d) = "+"%char \/
     current str (skipWs str d) = "-"%char ->
     parseMulDiv str fuel (advance (skipWs str d)) = Some (r2, d2) ->
     failed d2 = false ->
     addSubLoop str (S fuel) acc d
     = addSubLoop str fuel
         (wrap (if (current str (skipWs str d) =? "+")%char
                then acc + r2 else acc - r2)) d2) /\
  (forall str fuel acc d r2 d2,
     current str (skipWs str d) = "*"%char \/
     current str (skipWs str d) = "/"%char /\ r2 <> 0 ->
     parseExponent str fuel (advance (skipWs str d)) = Some (r2, d2) ->
     failed d2 = false ->
     mulDivLoop str (S fuel) acc d
     = mulDivLoop str fuel
         (wrap (if (current str (skipWs str d) =? "*")%char
                then acc * r2 else Z.quot acc r2)) d2) /\
  (forall str fuel d a b c d1 d2 d3,
     parseMulDiv str fuel d = Some (a, d1) -> failed d1 = false ->
     current str (skipWs str d1) = "+"%char \/
     current str (skipWs str d1) = "-"%char ->
     parseMulDiv str fuel (advance (skipWs str d1)) = Some (b, d2) ->
     failed d2 = false ->
     current str (skipWs str d2) = "+"%char \/
     current str (skipWs str d2) = "-"%char ->
     parseMulDiv str fuel (advance (skipWs str d2)) = Some (c, d3) ->
     failed d3 = false ->
     current str (skipWs str d3) <> "+"%char ->
     current str (skipWs str d3) <> "-"%char ->
     parseAddSubtract str (S (S (S (S fuel)))) d
     = Some (wrap ((if (current str (skipWs str d2) =? "+")%char
                    then Z.add else Z.sub)
                     (wrap ((if (current str (skipWs str d1) =? "+")%char
                             then Z.add else Z.sub) a b))
                     c),
             skipWs str d3)) /\
  (forall str fuel d a b c d1 d2 d3,
     parseExponent str fuel d = Some (a, d1) -> failed d1 = false ->
     current str (skipWs str d1) = "*"%char \/
     current str (skipWs str d1) = "/"%char /\ b <> 0 ->
     parseExponent str fuel (advance (skipWs str d1)) = Some (b, d2) ->
     failed d2 = false ->
     current str (skipWs str d2) = "*"%char \/
     current str (skipWs str d2) = "/"%char /\ c <> 0 ->
     parseExponent str fuel (advance (skipWs str d2)) = Some (c, d3) ->
     failed d3 = false ->
     current str (skipWs str d3) <> "*"%char ->
     current str (skipWs str d3) <> "/"%char ->
     parseMulDiv str (S (S (S (S fuel)))) d
     = Some (wrap ((if (current str (skipWs str d2) =? "*")%char
                    then Z.mul else Z.quot)
                     (wrap ((if (current str (skipWs str d1) =? "*")%char
                             then Z.mul else Z.quot) a b))
                     c),
             skipWs str d3)) /\
  (forall str fuel d a b c d1 d2 d3,
     parseUnaryMinus str fuel d = Some (a, d1) -> failed d1 = false ->
     current str (skipWs str d1) = "^"%char ->
     parseUnaryMinus str fuel (advance (skipWs str d1)) = Some (b, d2) ->
     failed d2 = false ->
     current str (skipWs str d2) = "^"%char ->
     parseExponent str fuel (advance (skipWs str d2)) = Some (c, d3) ->
     failed d3 = false ->
     failed (snd (raise b c d3)) = false ->
     parseExponent str (S (S fuel)) d
     = Some (raise a (fst (raise b c d3)) (snd (raise b c d3)))) /\
  parse "1-2+3"
  = Some (2, {| currentPosition := 5; errorCode := ParseError_None |}) /\
  parse "8/4/2"
  = Some (1, {| currentPosition := 5; errorCode := ParseError_None |}) /\
  parse "100/10*2"
  = Some (20, {| currentPosition := 8; errorCode := ParseError_None |}) /\
  parse "2^3^2"
  = Some (512, {| currentPosition := 5; errorCode := ParseError_None |}) /\
  parse "2^2^3"
  = Some (256, {| currentPosition := 5; errorCode := ParseError_None |}).
Proof.
  split; [|split; [|split; [|split; [|split]]]].
  - intros str fuel acc d r2 d2 Hc E F.
    rewrite addSubLoop_eq. cbv zeta. rewrite E, F.
    now destruct Hc as [-> | ->].
  - intros str fuel acc d r2 d2 Hc E F.
    rewrite mulDivLoop_eq. cbv zeta. rewrite E, F.
    destruct Hc as [-> | [-> Hr]]; [reflexivity|].
    apply Z.eqb_neq in Hr. cbn [Ascii.eqb Bool.eqb negb andb]. now rewrite Hr.
  - exact addSubtract_folds_left.
  - exact mulDiv_folds_left.
  - exact exponent_groups_right.
  - repeat split; vm_compute; reflexivity.
Qed.

Lemma associativity_examples_witness :
  addSubLoop "1-2+3" 21 1 {| currentPosition := 1;
                             errorCode := ParseError_None |}
  = addSubLoop "1-2+3" 20 (-1) {| currentPosition := 3;
                                  errorCode := ParseError_None |} /\
  mulDivLoop "8/2*3" 21 8 {| currentPosition := 1;
                             errorCode := ParseError_None |}
  = mulDivLoop "8/2*3" 20 4 {| currentPosition := 3;
                               errorCode := ParseError_None |} /\
  parseAddSubtract "1-2+3" 24 initialData
  = Some (wrap (wrap (1 - 2) + 3),
          {| currentPosition := 5; errorCode := ParseError_None |}) /\
  parseMulDiv "8/4/2" 24 initialData
  = Some (wrap (Z.quot (wrap (Z.quot 8 4)) 2),
          {| currentPosition := 5; errorCode := ParseError_None |}) /\
  parseExponent "2^3^2" 22 initialData
  = Some (2 ^ (3 ^ 2),
          {| currentPosition := 5; errorCode := ParseError_None |}).
Proof.
  pose (at1 := {| currentPosition := 1; errorCode := ParseError_None |}).
  pose (at3 := {| currentPosition := 3; errorCode := ParseError_None |}).
  pose (at5 := {| currentPosition := 5; errorCode := ParseError_None |}).
  repeat apply conj.
  - apply (proj1 associativity_examples "1-2+3" 20%nat 1 at1 2 at3);
      [right; reflexivity|reflexivity|reflexivity].
  - apply (proj1 (proj2 associativity_examples) "8/2*3" 20%nat 8 at1 2 at3);
      [right; split; [reflexivity|discriminate]|reflexivity|reflexivity].
  - apply (proj1 (proj2 (proj2 associativity_examples))
             "1-2+3" 20%nat initialData 1 2 3 at1 at3 at5);
      try reflexivity; try discriminate;
      [right; reflexivity|left; reflexivity].
  - apply (proj1 (proj2 (proj2 (proj2 associativity_examples)))
             "8/4/2" 20%nat initialData 8 4 2 at1 at3 at5);
      try reflexivity; try discriminate;
      right; (split; [reflexivity|discriminate]).
  - apply (proj1 (proj2 (proj2 (proj2 (proj2 associativity_examples))))
             "2^3^2" 20%nat initialData 2 3 2 at1 at3 at5);
      reflexivity.
Defined.

(** C5. Precedence follows the chain of tiers and parentheses override it:
    ["1+2*3"] is 7, ["(1+2)*3"] is 9, and the composite expression of the
    program's header comment is -33555156. *)
Theorem precedence_examples :
  parse "1+2*3"
  = Some (7, {| currentPosition := 5; errorCode := ParseError_None |}) /\
  parse "(1+2)*3"
  = Some (9, {| currentPosition := 7; errorCode := ParseError_None |}) /\
  parse "1 + 5 * (8-(3+5*(10+20))) - 2^5^2"
  = Some (-33555156,
          {| currentPosition := 33; errorCode := ParseError_None |}).
Proof. repeat split; vm_compute; reflexivity. Qed.

(** A minus sign in front of a base: [parseUnaryMinus] takes it and negates
    the operand before [parseExponent] sees the ['^']. *)
Lemma negated_base_is_raised
  (str : string) (fuel : nat) (d : ParseData)
  (r e : ValueType) (d1 d2 : ParseData) :
  current str (skipWs str d) = "-"%char ->
  parseParentheses str fuel (advance (skipWs str d)) = Some (r, d1) ->
  failed d1 = false ->
  current str (skipWs str d1) = "^"%char ->
  parseExponent str (S fuel) (advance (skipWs str d1)) = Some (e, d2) ->
  failed d2 = false ->
  parseUnaryMinus str (S fuel) d = Some (wrap (- r), d1) /\
  parseExponent str (S (S fuel)) d = Some (raise (wrap (- r)) e d2).
Proof.
  intros Hm E1 F1 Hp E2 F2.
  assert (Hum : parseUnaryMinus str (S fuel) d = Some (wrap (- r), d1)).
  { rewrite parseUnaryMinus_eq. cbv zeta.
    now rewrite Hm, Ascii.eqb_refl, E1. }
  split; [exact Hum|].
  rewrite parseExponent_eq, Hum, F1. cbv zeta. now rewrite Hp, E2, F2.
Qed.

(** C8. The unary minus binds tighter than ['^'].  For every input: when a
    ['-'] stands where the base starts, [parseUnaryMinus] consumes it and
    negates the operand that [parseParentheses] returns, and [parseExponent]
    raises that negated value, so that with operand [r] and exponent
    [e > 0] the result is [(-r) ^ e], not [-(r ^ e)].  ["-2^4"] is 16, as
    are ["- 2^4"] and ["-(2)^4"], where the sign cannot belong to the
    literal; ["-(2^4)"] is -16. *)
Theorem unary_minus_binds_tighter_than_power :
  (forall str fuel d r e d1 d2,
     current str (skipWs str d) = "-"%char ->
     parseParentheses str fuel (advance (skipWs str d)) = Some (r, d1) ->
     failed d1 = false ->
     current str (skipWs str d1) = "^"%char ->
     parseExponent str (S fuel) (advance (skipWs str d1)) = Some (e, d2) ->
     failed d2 = false ->
     parseUnaryMinus str (S fuel) d = Some (wrap (- r), d1) /\
     parseExponent str (S (S fuel)) d = Some (raise (wrap (- r)) e d2) /\
     (0 < e ->
      parseExponent str (S (S fuel)) d = Some (wrap (wrap (- r) ^ e), d2))) /\
  parse "-2^4"
  = Some (16, {| currentPosition := 4; errorCode := ParseError_None |}) /\
  parseUnaryMinus "-2^4" 20 initialData
  = Some (-2, {| currentPosition := 2; errorCode := ParseError_None |}) /\
  parseParentheses "-2^4" 19 {| currentPosition := 1;
                                errorCode := ParseError_None |}
  = Some (2, {| currentPosition := 2; errorCode := ParseError_None |}) /\
  parse "- 2^4"
  = Some (16, {| currentPosition := 5; errorCode := ParseError_None |}) /\
  parse "-(2)^4"
  = Some (16, {| currentPosition := 6; errorCode := ParseError_None |}) /\
  parse "-(2^4)"
  = Some (-16, {| currentPosition := 6; errorCode := ParseError_None |}).
Proof.
  split; [|repeat split; vm_compute; reflexivity].
  intros str fuel d r e d1 d2 Hm E1 F1 Hp E2 F2.
  destruct (negated_base_is_raised str fuel d r e d1 d2 Hm E1 F1 Hp E2 F2)
    as [Hum Hex].
  repeat split; try assumption.
  intros He. rewrite Hex. f_equal.
  apply raise_positive; [apply wrap_range|exact He].
Qed.

Lemma unary_minus_binds_tighter_than_power_witness :
  parseUnaryMinus "-(2)^4" 21 initialData
  = Some (wrap (- 2),
          {| currentPosition := 4; errorCode := ParseError_None |}) /\
  parseExponent "-(2)^4" 22 initialData
  = Some (wrap (wrap (- 2) ^ 4),
          {| currentPosition := 6; errorCode := ParseError_None |}).
Proof.
  pose (at4 := {| currentPosition := 4; errorCode := ParseError_None |}).
  pose (at6 := {| currentPosition := 6; errorCode := ParseError_None |}).
  destruct (proj1 unary_minus_binds_tighter_than_power
              "-(2)^4" 20%nat initialData 2 4 at4 at6
              eq_refl eq_refl eq_refl eq_refl eq_refl eq_refl)
    as (Hum & _ & Hpow).
  split; [exact Hum|]. apply Hpow. reflexivity.
Defined.

(** ** Division by zero *)





(** ** End of input *)

Lemma validCString_charAt (str : string) :
  validCString str = true ->
  forall p, (p < String.length str)%nat -> charAt str p <> "000"%char.
Proof.
  unfold charAt.
  induction str as [|c str IH]; simpl; intros Hv p Hp; [lia|].
  apply andb_true_iff in Hv. destruct Hv as [Hc Hv].
  destruct p as [|p].
  - apply negb_true_iff in Hc. now apply Ascii.eqb_neq in Hc.
  - apply IH; [assumption|lia].
Qed.

Lemma at_terminator (str : string) (p : nat) :
  validCString str = true -> (p <= String.length str)%nat ->
  (charAt str p = "000"%char <-> p = String.length str).
Proof.
  intros Hv Hp. split.
  - intros Hc. destruct (Nat.eq_dec p (String.length str)) as [|Hne]; [assumption|].
    exfalso. apply (validCString_charAt str Hv p); [lia|assumption].
  - intros ->. apply charAt_beyond. lia.
Qed.

(** C7. When [parseAddSubtract] succeeds, [parseInputString] skips the
    white space that follows and looks at the character under the cursor:
    at the end of the input the parse succeeds; otherwise the error is
    [ParseError_Syntax] with the cursor on that character, which is not
    white space.  Hence a successful parse has consumed the whole input,
    and ["3 4"] fails at offset 2, where the second literal starts. *)
Theorem driver_requires_end_of_input :
  (forall str fuel d v d1,
     validCString str = true ->
     (currentPosition d <= String.length str)%nat ->
     parseAddSubtract str fuel d = Some (v, d1) -> failed d1 = false ->
     let p := skipWhitespace str (currentPosition d1) in
     (p = String.length str ->
      parseInputString str fuel d
      = Some (v, {| currentPosition := p; errorCode := ParseError_None |})) /\
     (p <> String.length str ->
      (p < String.length str)%nat /\ isspace (charAt str p) = false /\
      parseInputString str fuel d
      = Some (v, {| currentPosition := p;
                    errorCode := ParseError_Syntax |}))) /\
  (forall str fuel d v d',
     validCString str = true ->
     (currentPosition d <= String.length str)%nat ->
     parseInputString str fuel d = Some (v, d') -> failed d' = false ->
     currentPosition d' = String.length str) /\
  parse "3 4"
  = Some (3, {| currentPosition := 2; errorCode := ParseError_Syntax |}).
Proof.
  assert (Hgen : forall str fuel d v d1,
     validCString str = true ->
     (currentPosition d <= String.length str)%nat ->
     parseAddSubtract str fuel d = Some (v, d1) -> failed d1 = false ->
     (skipWhitespace str (currentPosition d1) <= String.length str)%nat /\
     parseInputString str fuel d
     = Some (v, {| currentPosition := skipWhitespace str (currentPosition d1);
                   errorCode :=
                     if (charAt str (skipWhitespace str (currentPosition d1))
                         =? "000")%char
                     then ParseError_None else ParseError_Syntax |})).
  { intros str fuel d v d1 Hv Hd E F.
    destruct (tiers_within str fuel) as (Was & _).
    apply Was in E as Hw; [|assumption]. unfold within in Hw.
    split; [apply skipWhitespace_le; lia|].
    unfold parseInputString. rewrite E, F. cbv zeta.
    unfold current, skipWs, setError, setPosition. simpl.
    unfold failed in F. destruct (errorCode d1); try discriminate.
    now destruct (charAt str _ =? "000")%char. }
  split; [|split; [|vm_compute; reflexivity]].
  - intros str fuel d v d1 Hv Hd E F p.
    destruct (Hgen str fuel d v d1 Hv Hd E F) as [Hp Hrun]. fold p in Hp, Hrun.
    pose proof (at_terminator str p Hv Hp) as Hend.
    split.
    + intros Hpe. apply Hend in Hpe. rewrite Hrun, Hpe. reflexivity.
    + intros Hne. repeat split.
      * lia.
      * apply skipWhitespace_stops.
      * rewrite Hrun.
        destruct (charAt str p =? "000")%char eqn:Hc; [|reflexivity].
        apply Ascii.eqb_eq in Hc. apply Hend in Hc. contradiction.
  - intros str fuel d v d' Hv Hd H F.
    unfold parseInputString in H.
    destruct (parseAddSubtract str fuel d) as [[v1 d1]|] eqn:E; [|discriminate].
    destruct (failed d1) eqn:F1.
    { inversion H; subst. congruence. }
    destruct (Hgen str fuel d v1 d1 Hv Hd E F1) as [Hp Hrun].
    unfold parseInputString in Hrun. rewrite E, F1 in Hrun.
    rewrite Hrun in H. inversion H; subst; clear H. simpl in *.
    destruct (charAt str _ =? "000")%char eqn:Hc; [|discriminate].
    apply Ascii.eqb_eq in Hc. now apply (at_terminator str _ Hv Hp).
Qed.

Lemma driver_requires_end_of_input_witness :
  validCString "3 4" = true /\
  parseAddSubtract "3 4" 30 initialData
  = Some (3, {| currentPosition := 2; errorCode := ParseError_None |}) /\
  parseInputString "3 4" 30 initialData
  = Some (3, {| currentPosition := 2; errorCode := ParseError_Syntax |}) /\
  parseInputString "34 " 30 initialData
  = Some (34, {| currentPosition := 3; errorCode := ParseError_None |}) /\
  currentPosition {| currentPosition := 3; errorCode := ParseError_None |}
  = String.length "34 ".
Proof.
  split; [reflexivity|]. split; [reflexivity|]. repeat apply conj.
  - apply (proj1 driver_requires_end_of_input "3 4" 30%nat initialData 3
             {| currentPosition := 2; errorCode := ParseError_None |}).
    + reflexivity.
    + simpl. lia.
    + reflexivity.
    + reflexivity.
    + vm_compute. discriminate.
  - apply (proj1 driver_requires_end_of_input "34 " 30%nat initialData 34
             {| currentPosition := 3; errorCode := ParseError_None |}).
    + reflexivity.
    + simpl. lia.
    + reflexivity.
    + reflexivity.
    + reflexivity.
  - apply (proj1 (proj2 driver_requires_end_of_input) "34 " 30%nat
             initialData 34).
    + reflexivity.
    + simpl. lia.
    + reflexivity.
    + reflexivity.
Defined.

(** ** Signs in front of a literal *)

Lemma isdigit_not_space (c : ascii) : isdigit c = true -> isspace c = false.
Proof.
  unfold isdigit, isspace. intros H.
  apply andb_true_iff in H. destruct H as [H1 H2].
  apply N.leb_le in H1. apply N.leb_le in H2.
  apply orb_false_iff. split.
  - apply andb_false_iff. right. apply N.leb_gt. lia.
  - apply N.eqb_neq. lia.
Qed.

Lemma isdigit_not_char (c c' : ascii) :
  isdigit c = true -> isdigit c' = false -> (c =? c')%char = false.
Proof.
  intros H H'. destruct (c =? c')%char eqn:E; [|reflexivity].
  apply Ascii.eqb_eq in E. congruence.
Qed.

Lemma isdigit_inside (str : string) (p : nat) :
  isdigit (charAt str p) = true -> (p < String.length str)%nat.
Proof.
  intros H. apply charAt_inside. intros Hc. rewrite Hc in H. discriminate.
Qed.

Lemma scanDigits_stuck (str : string) (n p : nat) (acc : Z) :
  isdigit (charAt str p) = false -> scanDigits n str p acc = (acc, p).
Proof. intros H. destruct n; simpl; [|rewrite H]; reflexivity. Qed.

Lemma scanDigits_progress (str : string) (n p : nat) (acc : Z) :
  isdigit (charAt str p) = true -> (0 < n)%nat ->
  (p < snd (scanDigits n str p acc))%nat.
Proof.
  intros H Hn. destruct n as [|n]; [lia|]. simpl. rewrite H.
  pose proof (scanDigits_ge str n (S p) (acc * 10 + digitValue (charAt str p))).
  lia.
Qed.

(** A sign that no digit follows is no literal: nothing is converted. *)
Lemma strtoll_sign_stuck (str : string) (p : nat) :
  charAt str p = "-"%char \/ charAt str p = "+"%char ->
  isdigit (charAt str (S p)) = false ->
  strtoll str p = (0, p).
Proof.
  intros Hc Hd. unfold strtoll.
  rewrite skipWhitespace_fixed by (destruct Hc as [-> | ->]; reflexivity).
  destruct Hc as [-> | ->]; cbn [Ascii.eqb Bool.eqb andb orb];
    rewrite scanDigits_stuck by assumption;
    now rewrite Nat.eqb_refl.
Qed.

(** A sign followed by a digit starts a literal. *)
Lemma strtoll_sign_digit (str : string) (p : nat) :
  charAt str p = "-"%char \/ charAt str p = "+"%char ->
  isdigit (charAt str (S p)) = true ->
  strtoll str p
  = (clamp (if (charAt str p =? "-")%char
            then - fst (scanDigits (String.length str - S p) str (S p) 0)
            else fst (scanDigits (String.length str - S p) str (S p) 0)),
     snd (scanDigits (String.length str - S p) str (S p) 0)) /\
  (S p < snd (scanDigits (String.length str - S p) str (S p) 0))%nat.
Proof.
  intros Hc Hd.
  pose proof (isdigit_inside str (S p) Hd) as Hin.
  pose proof (scanDigits_progress str (String.length str - S p) (S p) 0 Hd
                ltac:(lia)) as Hpr.
  split; [|exact Hpr].
  unfold strtoll.
  rewrite skipWhitespace_fixed by (destruct Hc as [-> | ->]; reflexivity).
  destruct Hc as [-> | ->]; cbn [Ascii.eqb Bool.eqb andb orb];
    destruct (scanDigits (String.length str - S p) str (S p) 0)
      as [acc endPtr]; cbn [fst snd] in *;
    (destruct (Nat.eqb endPtr (S p)) eqn:E;
     [apply Nat.eqb_eq in E; lia|reflexivity]).
Qed.

(** A literal that starts with a digit. *)
Lemma strtoll_digit (str : string) (p : nat) :
  isdigit (charAt str p) = true ->
  strtoll str p
  = (clamp (fst (scanDigits (String.length str - p) str p 0)),
     snd (scanDigits (String.length str - p) str p 0)) /\
  (p < snd (scanDigits (String.length str - p) str p 0))%nat.
Proof.
  intros Hd.
  pose proof (isdigit_inside str p Hd) as Hin.
  pose proof (scanDigits_progress str (String.length str - p) p 0 Hd
                ltac:(lia)) as Hpr.
  split; [|exact Hpr].
  unfold strtoll.
  rewrite skipWhitespace_fixed by now apply isdigit_not_space.
  rewrite (isdigit_not_char _ "-"%char Hd eq_refl).
  rewrite (isdigit_not_char _ "+"%char Hd eq_refl).
  cbn [orb].
  destruct (scanDigits (String.length str - p) str p 0) as [acc endPtr].
  cbn [fst snd] in *.
  destruct (Nat.eqb endPtr p) eqn:E; [apply Nat.eqb_eq in E; lia|reflexivity].
Qed.

(** [parseValue] where a sign is followed by something else than a digit. *)
Lemma parseValue_sign_stuck (str : string) (d : ParseData) :
  let p := skipWhitespace str (currentPosition d) in
  charAt str p = "-"%char \/ charAt str p = "+"%char ->
  isdigit (charAt str (S p)) = false ->
  parseValue str d
  = (0, {| currentPosition := p; errorCode := ParseError_Syntax |}).
Proof.
  intros p Hc Hd. unfold parseValue, skipWs. pos_simpl. fold p.
  rewrite strtoll_sign_stuck by assumption.
  now rewrite Nat.eqb_refl.
Qed.

(** [parseValue] on a signed literal. *)
Lemma parseValue_sign_digit (str : string) (d : ParseData) :
  let p := skipWhitespace str (currentPosition d) in
  charAt str p = "-"%char \/ charAt str p = "+"%char ->
  isdigit (charAt str (S p)) = true ->
  parseValue str d
  = (fst (strtoll str p), setPosition d (snd (strtoll str p))) /\
  (S p < snd (strtoll str p))%nat.
Proof.
  intros p Hc Hd. unfold parseValue, skipWs. pos_simpl. fold p.
  destruct (strtoll_sign_digit str p Hc Hd) as [Heq Hlt].
  rewrite Heq. cbn [fst snd]. split; [|exact Hlt].
  destruct (Nat.eqb _ p) eqn:E; [apply Nat.eqb_eq in E; lia|].
  reflexivity.
Qed.

Lemma parseValue_skipWs (str : string) (d : ParseData) :
  parseValue str (skipWs str d) = parseValue str d.
Proof.
  unfold parseValue, skipWs. pos_simpl.
  now rewrite skipWhitespace_idem.
Qed.

(** Without an opening parenthesis [parseParentheses] is [parseValue]. *)
Lemma parseParentheses_literal (str : string) (fuel : nat) (d : ParseData) :
  (charAt str (skipWhitespace str (currentPosition d)) =? "(")%char = false ->
  parseParentheses str (S fuel) d = Some (parseValue str d).
Proof.
  intros Hc. rewrite parseParentheses_eq. cbv zeta.
  unfold current. pos_simpl. rewrite Hc. cbn [negb].
  now rewrite parseValue_skipWs.
Qed.

(** Two minus signs and a digit where an operand starts: the first sign is
    the unary operator, the second belongs to the literal. *)
Lemma parseUnaryMinus_two_signs (str : string) (fuel : nat) (d : ParseData) :
  let p := skipWhitespace str (currentPosition d) in
  charAt str p = "-"%char -> charAt str (S p) = "-"%char ->
  isdigit (charAt str (S (S p))) = true ->
  parseUnaryMinus str (S (S fuel)) d
  = Some (wrap (- fst (strtoll str (S p))),
          setPosition d (snd (strtoll str (S p)))) /\
  (S (S p) < snd (strtoll str (S p)))%nat.
Proof.
  intros p H1 H2 H3.
  assert (Hfix : skipWhitespace str (S p) = S p)
    by (apply skipWhitespace_fixed; now rewrite H2).
  pose proof (parseValue_sign_digit str (advance (skipWs str d))) as Hv.
  cbv zeta in Hv. pos_simpl. fold p in Hv. rewrite Hfix in Hv.
  destruct (Hv (or_introl H2) H3) as [Hv1 Hv2]. split; [|exact Hv2].
  rewrite parseUnaryMinus_eq. cbv zeta. unfold current. pos_simpl. fold p.
  rewrite H1, Ascii.eqb_refl.
  rewrite parseParentheses_literal
    by (pos_simpl; fold p; rewrite Hfix, H2; reflexivity).
  rewrite Hv1. reflexivity.
Qed.

(** Two minus signs and no digit after them where an operand starts: the
    literal scanner finds a sign without a number. *)
Lemma parseUnaryMinus_signs_stuck (str : string) (fuel : nat) (d : ParseData) :
  let p := skipWhitespace str (currentPosition d) in
  charAt str p = "-"%char -> charAt str (S p) = "-"%char ->
  isdigit (charAt str (S (S p))) = false ->
  parseUnaryMinus str (S (S fuel)) d
  = Some (0, {| currentPosition := S p; errorCode := ParseError_Syntax |}).
Proof.
  intros p H1 H2 H3.
  assert (Hfix : skipWhitespace str (S p) = S p)
    by (apply skipWhitespace_fixed; now rewrite H2).
  pose proof (parseValue_sign_stuck str (advance (skipWs str d))) as Hv.
  cbv zeta in Hv. pos_simpl. fold p in Hv. rewrite Hfix in Hv.
  specialize (Hv (or_introl H2) H3).
  rewrite parseUnaryMinus_eq. cbv zeta. unfold current. pos_simpl. fold p.
  rewrite H1, Ascii.eqb_refl.
  rewrite parseParentheses_literal
    by (pos_simpl; fold p; rewrite Hfix, H2; reflexivity).
  rewrite Hv. reflexivity.
Qed.

(** C9, as the code has it.  Where an operand starts, two minus signs
    followed by a digit parse (unary operator, then the sign of the
    literal), and two minus signs followed by anything else, a third minus
    sign included, are a syntax error at the second sign.  After a left
    operand one more sign is taken as the binary operator, so three signs
    parse there and four do not.  ["2--5"], ["2---5"] and ["--5"] succeed;
    ["---5"] and ["2----5"] fail. *)
Theorem consecutive_minus_signs :
  (forall str fuel d,
     let p := skipWhitespace str (currentPosition d) in
     charAt str p = "-"%char -> charAt str (S p) = "-"%char ->
     isdigit (charAt str (S (S p))) = true ->
     parseUnaryMinus str (S (S fuel)) d
     = Some (wrap (- fst (strtoll str (S p))),
             setPosition d (snd (strtoll str (S p)))) /\
     (S (S p) < snd (strtoll str (S p)))%nat) /\
  (forall str fuel d,
     let p := skipWhitespace str (currentPosition d) in
     charAt str p = "-"%char -> charAt str (S p) = "-"%char ->
     isdigit (charAt str (S (S p))) = false ->
     parseUnaryMinus str (S (S fuel)) d
     = Some (0, {| currentPosition := S p;
                   errorCode := ParseError_Syntax |})) /\
  (forall str fuel acc d,
     let p := skipWhitespace str (currentPosition d) in
     charAt str p = "-"%char -> charAt str (S p) = "-"%char ->
     charAt str (S (S p)) = "-"%char ->
     isdigit (charAt str (S (S (S p)))) = false ->
     addSubLoop str (S (S (S (S (S fuel))))) acc d
     = Some (acc, {| currentPosition := S (S p);
                     errorCode := ParseError_Syntax |})) /\
  parse "2--5"
  = Some (7, {| currentPosition := 4; errorCode := ParseError_None |}) /\
  parse "2---5"
  = Some (-3, {| currentPosition := 5; errorCode := ParseError_None |}) /\
  parse "--5"
  = Some (5, {| currentPosition := 3; errorCode := ParseError_None |}) /\
  parse "---5"
  = Some (0, {| currentPosition := 1; errorCode := ParseError_Syntax |}) /\
  parse "2----5"
  = Some (0, {| currentPosition := 3; errorCode := ParseError_Syntax |}).
Proof.
  split; [exact parseUnaryMinus_two_signs|].
  split; [exact parseUnaryMinus_signs_stuck|].
  split; [|repeat split; vm_compute; reflexivity].
  intros str fuel acc d p H1 H2 H3 H4.
  assert (Hfix : skipWhitespace str (S p) = S p)
    by (apply skipWhitespace_fixed; now rewrite H2).
  assert (Hum : parseUnaryMinus str (S (S fuel)) (advance (skipWs str d))
                = Some (0, {| currentPosition := S (S p);
                              errorCode := ParseError_Syntax |})).
  { pose proof (parseUnaryMinus_signs_stuck str fuel (advance (skipWs str d)))
      as Hum.
    cbv zeta in Hum.
    change (currentPosition (advance (skipWs str d))) with (S p) in Hum.
    rewrite Hfix in Hum. now apply Hum. }
  rewrite addSubLoop_eq. cbv zeta. unfold current.
  change (currentPosition (skipWs str d)) with p.
  rewrite H1. cbn [Ascii.eqb Bool.eqb negb andb].
  rewrite parseMulDiv_eq, parseExponent_eq, Hum. reflexivity.
Qed.

Lemma consecutive_minus_signs_witness :
  parseUnaryMinus "--5" 2 initialData
  = Some (5, {| currentPosition := 3; errorCode := ParseError_None |}) /\
  parseUnaryMinus "---5" 2 initialData
  = Some (0, {| currentPosition := 1; errorCode := ParseError_Syntax |}) /\
  addSubLoop "2----5" 5 2 {| currentPosition := 1;
                             errorCode := ParseError_None |}
  = Some (2, {| currentPosition := 3; errorCode := ParseError_Syntax |}).
Proof.
  repeat apply conj.
  - apply (proj1 (proj1 consecutive_minus_signs "--5" 0%nat initialData
                    eq_refl eq_refl eq_refl)).
  - apply (proj1 (proj2 consecutive_minus_signs) "---5" 0%nat initialData);
      reflexivity.
  - apply (proj1 (proj2 (proj2 consecutive_minus_signs)) "2----5" 0%nat 2
             {| currentPosition := 1; errorCode := ParseError_None |});
      reflexivity.
Defined.

(** C9 as stated fails for three signs where an operand starts: ["---5"] is
    a syntax error at offset 1. *)
Lemma three_leading_minus_signs_rejected :
  parse "---5"
  = Some (0, {| currentPosition := 1; errorCode := ParseError_Syntax |}).
Proof. vm_compute. reflexivity. Qed.

(** C10.  The literal scanner takes one sign of its own, so a literal with
    an explicit ['+'] parses as the literal without it, although the
    grammar has no unary plus: ["+5"] is 5 and ["2*+3"] is 6. *)
Theorem literal_accepts_plus_sign :
  (forall str d,
     let p := skipWhitespace str (currentPosition d) in
     charAt str p = "+"%char -> isdigit (charAt str (S p)) = true ->
     parseValue str d = parseValue str (setPosition d (S p)) /\
     errorCode (snd (parseValue str d)) = errorCode d /\
     (S p < currentPosition (snd (parseValue str d)))%nat) /\
  parse "+5"
  = Some (5, {| currentPosition := 2; errorCode := ParseError_None |}) /\
  parse "2*+3"
  = Some (6, {| currentPosition := 4; errorCode := ParseError_None |}).
Proof.
  split; [|split; vm_compute; reflexivity].
  intros str d p Hc Hd.
  destruct (parseValue_sign_digit str d (or_intror Hc) Hd) as [Hv Hlt].
  fold p in Hv, Hlt.
  destruct (strtoll_sign_digit str p (or_intror Hc) Hd) as [Hs _].
  rewrite Hc in Hs. cbn [Ascii.eqb Bool.eqb andb] in Hs.
  destruct (strtoll_digit str (S p) Hd) as [Hs' Hlt'].
  rewrite Hv. cbn [fst snd]. pos_simpl.
  split; [|split; [reflexivity|exact Hlt]].
  unfold parseValue, skipWs. pos_simpl.
  rewrite (skipWhitespace_fixed str (S p)) by now apply isdigit_not_space.
  rewrite Hs, Hs'. cbn [fst snd].
  destruct (Nat.eqb _ (S p)) eqn:E; [apply Nat.eqb_eq in E; lia|].
  reflexivity.
Qed.

Lemma literal_accepts_plus_sign_witness :
  parseValue "+5" initialData
  = (5, {| currentPosition := 2; errorCode := ParseError_None |}) /\
  parseValue "+5" initialData
  = parseValue "+5" {| currentPosition := 1; errorCode := ParseError_None |}.
Proof.
  split; [reflexivity|].
  apply (proj1 literal_accepts_plus_sign "+5" initialData); reflexivity.
Defined.

(** * Further properties of the program *)

(** ** White space *)

Lemma skipWhitespace_loop_skipped (str : string) :
  forall n p q,
    (p <= q < skipWhitespace_loop n str p)%nat ->
    isspace (charAt str q) = true.
Proof.
  induction n as [|n IH]; intros p q Hq; simpl in Hq.
  - lia.
  - destruct (isspace (charAt str p)) eqn:Hsp; [|lia].
    destruct (Nat.eq_dec p q) as [->|Hne]; [exact Hsp|].
    apply (IH (S p)). lia.
Qed.

(** X1. [skipWhitespace] returns the first position at or after [p] that
    holds no white space: it does not move back, it stays inside the string
    when [p] is inside, every character it passes is white space and the one
    it stops at is not; skipping again changes nothing. *)
Theorem skipWhitespace_first_non_space (str : string) (p : nat) :
  (p <= skipWhitespace str p)%nat /\
  ((p <= String.length str)%nat ->
   (skipWhitespace str p <= String.length str)%nat) /\
  (forall q, (p <= q < skipWhitespace str p)%nat ->
             isspace (charAt str q) = true) /\
  isspace (charAt str (skipWhitespace str p)) = false /\
  skipWhitespace str (skipWhitespace str p) = skipWhitespace str p.
Proof.
  repeat apply conj.
  - apply skipWhitespace_ge.
  - apply skipWhitespace_le.
  - intros q Hq. eapply skipWhitespace_loop_skipped. exact Hq.
  - apply skipWhitespace_stops.
  - apply skipWhitespace_idem.
Qed.

Lemma skipWhitespace_first_non_space_witness :
  skipWhitespace "   7 " 0 = 3%nat /\
  (skipWhitespace "   7 " 0 <= String.length "   7 ")%nat /\
  isspace (charAt "   7 " 1) = true.
Proof.
  split; [reflexivity|]. split.
  - apply (proj1 (proj2 (skipWhitespace_first_non_space "   7 " 0))).
    simpl. lia.
  - apply (proj1 (proj2 (proj2 (skipWhitespace_first_non_space "   7 " 0)))).
    change (skipWhitespace "   7 " 0) with 3%nat. lia.
Defined.

(** Passing white space by hand or by [skipWhitespace] is the same. *)
Lemma skipWhitespace_from_space (str : string) (p : nat) :
  isspace (charAt str p) = true ->
  skipWhitespace str p = skipWhitespace str (S p).
Proof.
  intros Hsp. unfold skipWhitespace.
  assert (Hin : (p < String.length str)%nat).
  { apply charAt_inside. intros Hc. rewrite Hc in Hsp. discriminate. }
  replace (String.length str - p)%nat with (S (String.length str - S p)) by lia.
  simpl. now rewrite Hsp.
Qed.

Lemma allSpaces_charAt (ws rest : string) :
  allSpaces ws = true ->
  forall p, (p < String.length ws)%nat ->
            isspace (charAt (ws ++ rest) p) = true.
Proof.
  unfold charAt.
  induction ws as [|c ws IH]; simpl; intros Hs p Hp; [lia|].
  apply andb_true_iff in Hs. destruct Hs as [Hc Hs].
  destruct p as [|p]; [exact Hc|]. apply IH; [assumption|lia].
Qed.

Lemma skipWhitespace_over_spaces (str : string) :
  forall n p,
    (forall q, (p <= q < p + n)%nat -> isspace (charAt str q) = true) ->
    skipWhitespace str p = skipWhitespace str (p + n).
Proof.
  induction n as [|n IH]; intros p Hq.
  - now rewrite Nat.add_0_r.
  - rewrite skipWhitespace_from_space by (apply Hq; lia).
    rewrite IH by (intros q Hq'; apply Hq; lia).
    f_equal. lia.
Qed.

(** ** A prefix before the part that is parsed *)

Lemma length_app (s1 s2 : string) :
  String.length (s1 ++ s2) = (String.length s1 + String.length s2)%nat.
Proof. induction s1 as [|c s1 IH]; simpl; congruence. Qed.

Lemma charAt_app (pre s : string) (p : nat) :
  charAt (pre ++ s) (String.length pre + p) = charAt s p.
Proof.
  unfold charAt. rewrite (Nat.add_comm (String.length pre) p).
  now rewrite <- append_correct2.
Qed.

Lemma skipWhitespace_loop_app (pre s : string) :
  forall n p,
    skipWhitespace_loop n (pre ++ s) (String.length pre + p)
    = (String.length pre + skipWhitespace_loop n s p)%nat.
Proof.
  induction n as [|n IH]; intros p; simpl; [reflexivity|].
  rewrite charAt_app. destruct (isspace (charAt s p)); [|reflexivity].
  rewrite <- Nat.add_succ_r. apply IH.
Qed.

Lemma skipWhitespace_app (pre s : string) (p : nat) :
  skipWhitespace (pre ++ s) (String.length pre + p)
  = (String.length pre + skipWhitespace s p)%nat.
Proof.
  unfold skipWhitespace. rewrite length_app.
  replace (String.length pre + String.length s - (String.length pre + p))%nat
    with (String.length s - p)%nat by lia.
  apply skipWhitespace_loop_app.
Qed.

Lemma scanDigits_app (pre s : string) :
  forall n p acc,
    scanDigits n (pre ++ s) (String.length pre + p) acc
    = (fst (scanDigits n s p acc),
       (String.length pre + snd (scanDigits n s p acc))%nat).
Proof.
  induction n as [|n IH]; intros p acc; simpl; [reflexivity|].
  rewrite charAt_app. destruct (isdigit (charAt s p)); [|reflexivity].
  rewrite <- Nat.add_succ_r. apply IH.
Qed.

Lemma strtoll_app (pre s : string) (p : nat) :
  strtoll (pre ++ s) (String.length pre + p)
  = (fst (strtoll s p), (String.length pre + snd (strtoll s p))%nat).
Proof.
  unfold strtoll.
  rewrite skipWhitespace_app, charAt_app.
  set (q := skipWhitespace s p).
  set (sign := ((charAt s q =? "-")%char || (charAt s q =? "+")%char)%bool).
  assert (Hp1 : (if sign then S (String.length pre + q)
                 else (String.length pre + q)%nat)
                = (String.length pre + (if sign then S q else q))%nat)
    by (destruct sign; lia).
  rewrite Hp1, length_app.
  replace (String.length pre + String.length s
           - (String.length pre + (if sign then S q else q)))%nat
    with (String.length s - (if sign then S q else q))%nat by lia.
  rewrite scanDigits_app.
  destruct (scanDigits (String.length s - (if sign then S q else q)) s
              (if sign then S q else q) 0) as [acc endPtr].
  cbn [fst snd].
  destruct (Nat.eqb endPtr (if sign then S q else q)) eqn:E.
  - apply Nat.eqb_eq in E. subst endPtr. now rewrite Nat.eqb_refl.
  - apply Nat.eqb_neq in E.
    destruct (Nat.eqb _ _) eqn:E'; [apply Nat.eqb_eq in E'; lia|reflexivity].
Qed.

Section Prefix.

Variables pre s : string.

Local Abbreviation k := (String.length pre).

Lemma failed_shift (d : ParseData) : failed (shiftData k d) = failed d.
Proof. reflexivity. Qed.

Lemma setError_shift (d : ParseData) (e : ParseErrorCode) :
  setError (shiftData k d) e = shiftData k (setError d e).
Proof. reflexivity. Qed.

Lemma advance_shift (d : ParseData) :
  advance (shiftData k d) = shiftData k (advance d).
Proof.
  unfold advance, setPosition, shiftData. simpl. f_equal. lia.
Qed.

Lemma skipWs_shift (d : ParseData) :
  skipWs (pre ++ s) (shiftData k d) = shiftData k (skipWs s d).
Proof.
  unfold skipWs, setPosition, shiftData. simpl.
  now rewrite skipWhitespace_app.
Qed.

Lemma current_shift (d : ParseData) :
  current (pre ++ s) (shiftData k d) = current s d.
Proof. unfold current, shiftData. simpl. apply charAt_app. Qed.

Lemma raise_shift (b e : ValueType) (d : ParseData) :
  raise b e (shiftData k d)
  = (fst (raise b e d), shiftData k (snd (raise b e d))).
Proof.
  unfold raise.
  destruct (e =? 0); [reflexivity|].
  destruct ((e <? 0) && (b =? 0)); [reflexivity|].
  destruct (e <? 0); reflexivity.
Qed.

Lemma parseValue_shift (d : ParseData) :
  parseValue (pre ++ s) (shiftData k d)
  = (fst (parseValue s d), shiftData k (snd (parseValue s d))).
Proof.
  unfold parseValue. rewrite skipWs_shift.
  unfold shiftData at 1 2. cbn [currentPosition errorCode].
  rewrite strtoll_app.
  destruct (strtoll s (currentPosition (skipWs s d))) as [v e].
  cbn [fst snd].
  destruct (Nat.eqb e (currentPosition (skipWs s d))) eqn:E.
  - apply Nat.eqb_eq in E. subst e. now rewrite Nat.eqb_refl.
  - apply Nat.eqb_neq in E.
    destruct (Nat.eqb _ _) eqn:E'; [apply Nat.eqb_eq in E'; lia|reflexivity].
Qed.

Ltac push_shift :=
  repeat first
    [ rewrite failed_shift | rewrite skipWs_shift | rewrite current_shift
    | rewrite advance_shift | rewrite setError_shift ].

(** Every tier works on [pre ++ s], from a cursor beyond [pre], as it works
    on [s]: the characters of [pre] are never looked at again. *)
Lemma tiers_shift :
  forall fuel,
    (forall d, parseAddSubtract (pre ++ s) fuel (shiftData k d)
               = shiftResult k (parseAddSubtract s fuel d)) /\
    (forall r d, addSubLoop (pre ++ s) fuel r (shiftData k d)
                 = shiftResult k (addSubLoop s fuel r d)) /\
    (forall d, parseMulDiv (pre ++ s) fuel (shiftData k d)
               = shiftResult k (parseMulDiv s fuel d)) /\
    (forall r d, mulDivLoop (pre ++ s) fuel r (shiftData k d)
                 = shiftResult k (mulDivLoop s fuel r d)) /\
    (forall d, parseExponent (pre ++ s) fuel (shiftData k d)
               = shiftResult k (parseExponent s fuel d)) /\
    (forall d, parseUnaryMinus (pre ++ s) fuel (shiftData k d)
               = shiftResult k (parseUnaryMinus s fuel d)) /\
    (forall d, parseParentheses (pre ++ s) fuel (shiftData k d)
               = shiftResult k (parseParentheses s fuel d)).
Proof.
  induction fuel as [|fuel IH].
  { repeat apply conj; reflexivity. }
  destruct IH as (IHas & IHasl & IHmd & IHmdl & IHex & IHum & IHpa).
  repeat apply conj.
  - intros d. rewrite !parseAddSubtract_eq, IHmd.
    destruct (parseMulDiv s fuel d) as [[r1 d1]|]; [|reflexivity].
    cbn [shiftResult]. push_shift.
    destruct (failed d1); [reflexivity|apply IHasl].
  - intros r d. rewrite !addSubLoop_eq. cbv zeta. push_shift.
    destruct (negb _ && negb _); [reflexivity|].
    rewrite IHmd.
    destruct (parseMulDiv s fuel (advance (skipWs s d))) as [[r2 d2]|];
      [|reflexivity].
    cbn [shiftResult]. push_shift.
    destruct (failed d2); [reflexivity|].
    destruct (_ =? "+")%char; apply IHasl.
  - intros d. rewrite !parseMulDiv_eq, IHex.
    destruct (parseExponent s fuel d) as [[r1 d1]|]; [|reflexivity].
    cbn [shiftResult]. push_shift.
    destruct (failed d1); [reflexivity|apply IHmdl].
  - intros r d. rewrite !mulDivLoop_eq. cbv zeta. push_shift.
    destruct (negb _ && negb _); [reflexivity|].
    rewrite IHex.
    destruct (parseExponent s fuel (advance (skipWs s d))) as [[r2 d2]|];
      [|reflexivity].
    cbn [shiftResult]. push_shift.
    destruct (failed d2); [reflexivity|].
    destruct (_ =? "*")%char; [apply IHmdl|].
    destruct (r2 =? 0); [reflexivity|apply IHmdl].
  - intros d. rewrite !parseExponent_eq, IHum.
    destruct (parseUnaryMinus s fuel d) as [[r1 d1]|]; [|reflexivity].
    cbn [shiftResult]. push_shift.
    destruct (failed d1); [reflexivity|]. cbv zeta. push_shift.
    destruct (negb _); [reflexivity|].
    rewrite IHex.
    destruct (parseExponent s fuel (advance (skipWs s d1))) as [[r2 d2]|];
      [|reflexivity].
    cbn [shiftResult]. push_shift.
    destruct (failed d2); [reflexivity|].
    rewrite raise_shift. now destruct (raise r1 r2 d2).
  - intros d. rewrite !parseUnaryMinus_eq. cbv zeta. push_shift.
    destruct (current s (skipWs s d) =? "-")%char; push_shift; rewrite IHpa.
    + now destruct (parseParentheses s fuel (advance (skipWs s d)))
        as [[r1 d1]|].
    + now destruct (parseParentheses s fuel (skipWs s d)) as [[r1 d1]|].
  - intros d. rewrite !parseParentheses_eq. cbv zeta. push_shift.
    destruct (negb _).
    + rewrite parseValue_shift. now destruct (parseValue s (skipWs s d)).
    + rewrite IHas.
      destruct (parseAddSubtract s fuel (advance (skipWs s d))) as [[r1 d1]|];
        [|reflexivity].
      cbn [shiftResult]. push_shift.
      destruct (negb _); reflexivity.
Qed.

Lemma parseInputString_shift (fuel : nat) (d : ParseData) :
  parseInputString (pre ++ s) fuel (shiftData k d)
  = shiftResult k (parseInputString s fuel d).
Proof.
  unfold parseInputString.
  destruct (tiers_shift fuel) as (Has & _). rewrite Has.
  destruct (parseAddSubtract s fuel d) as [[r1 d1]|]; [|reflexivity].
  cbn [shiftResult]. push_shift.
  destruct (failed d1); [reflexivity|]. cbv zeta. push_shift.
  destruct (negb _); reflexivity.
Qed.

End Prefix.

(** X2. The parser never looks back: started beyond a prefix of the input,
    the driver does what it does on the rest alone, with every cursor
    position moved on by the length of the prefix. *)
Theorem parser_never_looks_back
  (pre s : string) (fuel : nat) (d : ParseData) :
  parseInputString (pre ++ s) fuel (shiftData (String.length pre) d)
  = shiftResult (String.length pre) (parseInputString s fuel d).
Proof. apply parseInputString_shift. Qed.

(** Every tier begins by skipping white space. *)
Lemma skipWs_idem (str : string) (d : ParseData) :
  skipWs str (skipWs str d) = skipWs str d.
Proof.
  unfold skipWs, setPosition. simpl. now rewrite skipWhitespace_idem.
Qed.

Lemma parseUnaryMinus_skipWs (str : string) (fuel : nat) (d : ParseData) :
  parseUnaryMinus str fuel (skipWs str d) = parseUnaryMinus str fuel d.
Proof.
  destruct fuel as [|fuel]; [reflexivity|].
  rewrite !parseUnaryMinus_eq. cbv zeta. now rewrite skipWs_idem.
Qed.

Lemma parseExponent_skipWs (str : string) (fuel : nat) (d : ParseData) :
  parseExponent str fuel (skipWs str d) = parseExponent str fuel d.
Proof.
  destruct fuel as [|fuel]; [reflexivity|].
  now rewrite !parseExponent_eq, parseUnaryMinus_skipWs.
Qed.

Lemma parseMulDiv_skipWs (str : string) (fuel : nat) (d : ParseData) :
  parseMulDiv str fuel (skipWs str d) = parseMulDiv str fuel d.
Proof.
  destruct fuel as [|fuel]; [reflexivity|].
  now rewrite !parseMulDiv_eq, parseExponent_skipWs.
Qed.

Lemma parseAddSubtract_skipWs (str : string) (fuel : nat) (d : ParseData) :
  parseAddSubtract str fuel (skipWs str d) = parseAddSubtract str fuel d.
Proof.
  destruct fuel as [|fuel]; [reflexivity|].
  now rewrite !parseAddSubtract_eq, parseMulDiv_skipWs.
Qed.

Lemma parseInputString_skipWs (str : string) (fuel : nat) (d : ParseData) :
  parseInputString str fuel (skipWs str d) = parseInputString str fuel d.
Proof. unfold parseInputString. now rewrite parseAddSubtract_skipWs. Qed.

Lemma skipWs_initial_spaces (ws s : string) :
  allSpaces ws = true ->
  skipWs (ws ++ s) initialData
  = shiftData (String.length ws) (skipWs s initialData).
Proof.
  intros Hws. unfold skipWs, setPosition, shiftData, initialData. simpl.
  f_equal.
  rewrite (skipWhitespace_over_spaces (ws ++ s) (String.length ws) 0)
    by (intros q Hq; apply allSpaces_charAt; [assumption|lia]).
  rewrite Nat.add_comm. apply skipWhitespace_app.
Qed.

Lemma parse_leading_spaces (ws s : string) :
  allSpaces ws = true ->
  parse (ws ++ s) = shiftResult (String.length ws) (parse s).
Proof.
  intros Hws.
  destruct (parse_total s) as (v & d & E). rewrite E.
  apply parse_fuel_irrelevant with (fuel := parseFuel s).
  rewrite <- parseInputString_skipWs, skipWs_initial_spaces by assumption.
  rewrite parseInputString_shift, parseInputString_skipWs.
  unfold parse in E. now rewrite E.
Qed.

(** X3. White space in front of an expression is ignored: the value and the
    error are those of the expression alone, and the cursor, hence the caret
    of a diagnostic, stands as many characters further as were put in
    front. *)
Theorem leading_white_space_ignored (ws s : string) :
  allSpaces ws = true ->
  parse (ws ++ s) = shiftResult (String.length ws) (parse s).
Proof. exact (parse_leading_spaces ws s). Qed.

Lemma leading_white_space_ignored_witness :
  allSpaces "  " = true /\
  parse ("  " ++ "3 4")
  = Some (3, {| currentPosition := 4; errorCode := ParseError_Syntax |}).
Proof.
  split; [reflexivity|].
  rewrite (leading_white_space_ignored "  " "3 4" eq_refl). reflexivity.
Defined.

(** ** Cursor safety and termination *)

(** X4. When the driver, started with the cursor inside the string,
    returns, the cursor it returns is not before the place it started from
    and not beyond the terminator. *)
Theorem cursor_stays_inside
  (str : string) (fuel : nat) (d : ParseData) (v : ValueType) (d' : ParseData) :
  (currentPosition d <= String.length str)%nat ->
  parseInputString str fuel d = Some (v, d') ->
  (currentPosition d <= currentPosition d' <= String.length str)%nat.
Proof.
  intros Hd H. unfold parseInputString in H.
  open_call r1 d1 Hcall.
  destruct (tiers_within str fuel) as (Was & _).
  apply Was in Hcall; [|assumption]. unfold within in Hcall.
  open_if; [close_some; assumption|].
  pose proof (skipWs_within str d1 ltac:(lia)) as Hs. unfold within in Hs.
  close_some.
  destruct (negb _); pos_simpl; lia.
Qed.

Lemma cursor_stays_inside_witness :
  (0 <= 5 <= String.length "(5/0)")%nat.
Proof.
  apply (cursor_stays_inside "(5/0)" 45 initialData 0
           {| currentPosition := 5; errorCode := ParseError_Div0 |}).
  - simpl. lia.
  - reflexivity.
Defined.


(** ** A successful parse consumes input *)

Lemma parseValue_progress (str : string) (d : ParseData) :
  (currentPosition d <= String.length str)%nat ->
  failed (snd (parseValue str d)) = false ->
  (currentPosition d < currentPosition (snd (parseValue str d)))%nat.
Proof.
  intros Hd. unfold parseValue.
  pose proof (skipWs_within str d Hd) as Hs. unfold within in Hs.
  pose proof (strtoll_bounds str (currentPosition (skipWs str d)) ltac:(lia))
    as Hb.
  destruct (strtoll str (currentPosition (skipWs str d))) as [v e].
  cbn [fst snd] in *.
  destruct (Nat.eqb e (currentPosition (skipWs str d))) eqn:E.
  - intros F. discriminate F.
  - apply Nat.eqb_neq in E. intros _. pos_simpl. lia.
Qed.

Lemma tiers_progress (str : string) :
  forall fuel,
    (forall d v d', parseAddSubtract str fuel d = Some (v, d') ->
       (currentPosition d <= String.length str)%nat -> failed d' = false ->
       (currentPosition d < currentPosition d')%nat) /\
    (forall d v d', parseMulDiv str fuel d = Some (v, d') ->
       (currentPosition d <= String.length str)%nat -> failed d' = false ->
       (currentPosition d < currentPosition d')%nat) /\
    (forall d v d', parseExponent str fuel d = Some (v, d') ->
       (currentPosition d <= String.length str)%nat -> failed d' = false ->
       (currentPosition d < currentPosition d')%nat) /\
    (forall d v d', parseUnaryMinus str fuel d = Some (v, d') ->
       (currentPosition d <= String.length str)%nat -> failed d' = false ->
       (currentPosition d < currentPosition d')%nat) /\
    (forall d v d', parseParentheses str fuel d = Some (v, d') ->
       (currentPosition d <= String.length str)%nat -> failed d' = false ->
       (currentPosition d < currentPosition d')%nat).
Proof.
  induction fuel as [|fuel IH].
  { repeat apply conj; intros; discriminate. }
  destruct IH as (IHas & IHmd & IHex & IHum & IHpa).
  destruct (tiers_within str fuel)
    as (Was & Wasl & Wmd & Wmdl & Wex & Wum & Wpa).
  unfold within in *.
  repeat apply conj.
  - intros d v d' H Hd F. rewrite parseAddSubtract_eq in H.
    open_call r1 d1 Hcall. pose proof (Wmd _ _ _ Hcall Hd) as Hw.
    open_if; [close_some; congruence|].
    apply IHmd in Hcall; [|assumption|assumption].
    apply Wasl in H; lia.
  - intros d v d' H Hd F. rewrite parseMulDiv_eq in H.
    open_call r1 d1 Hcall. pose proof (Wex _ _ _ Hcall Hd) as Hw.
    open_if; [close_some; congruence|].
    apply IHex in Hcall; [|assumption|assumption].
    apply Wmdl in H; lia.
  - intros d v d' H Hd F. rewrite parseExponent_eq in H.
    open_call r1 d1 Hcall. pose proof (Wum _ _ _ Hcall Hd) as Hw.
    open_if; [close_some; congruence|].
    apply IHum in Hcall; [|assumption|assumption].
    cbv zeta in H.
    pose proof (skipWs_within str d1 ltac:(lia)) as Hs. unfold within in Hs.
    open_if; [close_some; pos_simpl; lia|].
    apply guard1_inside in Hif0; [|discriminate].
    open_call r2 d2 Hcall2. apply Wex in Hcall2; [|pos_simpl; lia].
    pos_simpl.
    open_if; [close_some; lia|].
    close_some. unfold raise in H1.
    repeat match type of H1 with
           | context [if ?b then _ else _] => destruct b
           end; inversion H1; subst; pos_simpl; lia.
  - intros d v d' H Hd F. rewrite parseUnaryMinus_eq in H. cbv zeta in H.
    pose proof (skipWs_within str d Hd) as Hs. unfold within in Hs.
    destruct (current str (skipWs str d) =? "-")%char eqn:Hm.
    + apply charAt_eqb_inside in Hm; [|discriminate].
      open_call r1 d1 Hcall. apply Wpa in Hcall; [|pos_simpl; lia].
      pos_simpl. close_some. lia.
    + open_call r1 d1 Hcall. close_some.
      apply IHpa in Hcall; [lia|lia|assumption].
  - intros d v d' H Hd F. rewrite parseParentheses_eq in H. cbv zeta in H.
    pose proof (skipWs_within str d Hd) as Hs. unfold within in Hs.
    open_if.
    + close_some.
      pose proof (parseValue_progress str (skipWs str d) ltac:(lia)) as Hv.
      rewrite H1 in Hv. cbn [snd] in Hv. specialize (Hv F). lia.
    + apply guard1_inside in Hif; [|discriminate].
      open_call r1 d1 Hcall. apply Was in Hcall; [|pos_simpl; lia].
      pos_simpl.
      pose proof (skipWs_within str d1 ltac:(lia)) as Hs'.
      unfold within in Hs'.
      open_if; [close_some; discriminate F|].
      close_some. pos_simpl. lia.
Qed.

(** X6. A parse that ends without error has consumed at least one
    character: nothing, white space included, is never accepted as an
    expression. *)
Theorem success_consumes_input
  (str : string) (fuel : nat) (d : ParseData) (v : ValueType) (d' : ParseData) :
  (currentPosition d <= String.length str)%nat ->
  parseInputString str fuel d = Some (v, d') -> failed d' = false ->
  (currentPosition d < currentPosition d')%nat.
Proof.
  intros Hd H F. unfold parseInputString in H.
  open_call r1 d1 Hcall.
  open_if; [close_some; congruence|].
  destruct (tiers_progress str fuel) as (Pas & _).
  apply Pas in Hcall; [|assumption|assumption].
  pose proof (skipWhitespace_ge str (currentPosition d1)) as Hge.
  close_some. destruct (negb _); pos_simpl; lia.
Qed.

Lemma success_consumes_input_witness : (0 < 5)%nat.
Proof.
  apply (success_consumes_input "1-2+3" 45 initialData 2
           {| currentPosition := 5; errorCode := ParseError_None |}).
  - simpl. lia.
  - reflexivity.
  - reflexivity.
Defined.

(** ** Which errors an input can produce *)

Lemma occurs_charAt (c : ascii) (str : string) :
  c <> "000"%char ->
  forall p, (charAt str p =? c)%char = true -> occurs c str = true.
Proof.
  intros Hc. unfold charAt.
  induction str as [|c' str IH]; intros p Hp.
  - cbn [String.get] in Hp. apply Ascii.eqb_eq in Hp. congruence.
  - cbn [occurs]. destruct p as [|p]; cbn [String.get] in Hp.
    + now rewrite Hp.
    + rewrite (IH p Hp). apply orb_true_r.
Qed.

Lemma tiers_errors_explained (str : string) :
  forall fuel,
    (forall d v d', parseAddSubtract str fuel d = Some (v, d') ->
       errorExplained str (errorCode d) = true ->
       errorExplained str (errorCode d') = true) /\
    (forall r d v d', addSubLoop str fuel r d = Some (v, d') ->
       errorExplained str (errorCode d) = true ->
       errorExplained str (errorCode d') = true) /\
    (forall d v d', parseMulDiv str fuel d = Some (v, d') ->
       errorExplained str (errorCode d) = true ->
       errorExplained str (errorCode d') = true) /\
    (forall r d v d', mulDivLoop str fuel r d = Some (v, d') ->
       errorExplained str (errorCode d) = true ->
       errorExplained str (errorCode d') = true) /\
    (forall d v d', parseExponent str fuel d = Some (v, d') ->
       errorExplained str (errorCode d) = true ->
       errorExplained str (errorCode d') = true) /\
    (forall d v d', parseUnaryMinus str fuel d = Some (v, d') ->
       errorExplained str (errorCode d) = true ->
       errorExplained str (errorCode d') = true) /\
    (forall d v d', parseParentheses str fuel d = Some (v, d') ->
       errorExplained str (errorCode d) = true ->
       errorExplained str (errorCode d') = true).
Proof.
  induction fuel as [|fuel IH].
  { repeat apply conj; intros; discriminate. }
  destruct IH as (IHas & IHasl & IHmd & IHmdl & IHex & IHum & IHpa).
  repeat apply conj.
  - intros d v d' H Hd. rewrite parseAddSubtract_eq in H.
    open_call r1 d1 Hcall. apply IHmd in Hcall; [|assumption].
    open_if; [close_some; assumption|]. eapply IHasl; eassumption.
  - intros r d v d' H Hd. rewrite addSubLoop_eq in H. cbv zeta in H.
    open_if; [close_some; assumption|].
    open_call r2 d2 Hcall. apply IHmd in Hcall; [|assumption].
    open_if; [close_some; assumption|].
    open_if; eapply IHasl; eassumption.
  - intros d v d' H Hd. rewrite parseMulDiv_eq in H.
    open_call r1 d1 Hcall. apply IHex in Hcall; [|assumption].
    open_if; [close_some; assumption|]. eapply IHmdl; eassumption.
  - intros r d v d' H Hd. rewrite mulDivLoop_eq in H. cbv zeta in H.
    open_if; [close_some; assumption|].
    open_call r2 d2 Hcall. apply IHex in Hcall; [|assumption].
    open_if; [close_some; assumption|].
    destruct (current str (skipWs str d) =? "*")%char eqn:Hstar;
      [eapply IHmdl; eassumption|].
    open_if; [|eapply IHmdl; eassumption].
    close_some. cbn [errorCode setError errorExplained].
    apply orb_true_iff. left.
    apply (occurs_charAt "/" str ltac:(discriminate)
             (currentPosition (skipWs str d))).
    cbn [negb andb] in Hif.
    now apply negb_false_iff in Hif.
  - intros d v d' H Hd. rewrite parseExponent_eq in H.
    open_call r1 d1 Hcall. apply IHum in Hcall; [|assumption].
    open_if; [close_some; assumption|]. cbv zeta in H.
    open_if; [close_some; assumption|].
    open_call r2 d2 Hcall2. apply IHex in Hcall2; [|assumption].
    open_if; [close_some; assumption|].
    close_some. unfold raise in H1.
    apply negb_false_iff in Hif0.
    apply (occurs_charAt "^" str ltac:(discriminate)) in Hif0.
    repeat match type of H1 with
           | context [if ?b then _ else _] => destruct b
           end; inversion H1; subst; try assumption.
    cbn [errorCode setError errorExplained]. rewrite Hif0. apply orb_true_r.
  - intros d v d' H Hd. rewrite parseUnaryMinus_eq in H. cbv zeta in H.
    open_call r1 d1 Hcall. close_some.
    apply IHpa in Hcall; [assumption|].
    now destruct (_ =? "-")%char.
  - intros d v d' H Hd. rewrite parseParentheses_eq in H. cbv zeta in H.
    open_if.
    + close_some. unfold parseValue in H1.
      destruct (strtoll str _) as [r e].
      destruct (Nat.eqb e _); inversion H1; subst; [reflexivity|assumption].
    + apply negb_false_iff in Hif.
      apply (occurs_charAt "(" str ltac:(discriminate)) in Hif.
      open_call r1 d1 Hcall.
      open_if; close_some; [exact Hif|].
      apply IHas in Hcall; [exact Hcall|exact Hd].
Qed.

(** X7. An error names something the input holds:
    [ParseError_NoClosingParenthesis] is only reported for an input with an
    opening parenthesis, and [ParseError_Div0] only for an input with a
    ['/'] or a ['^']. *)
Theorem errors_are_explained_by_the_input
  (str : string) (v : ValueType) (d : ParseData) :
  parse str = Some (v, d) ->
  (errorCode d = ParseError_NoClosingParenthesis -> occurs "(" str = true) /\
  (errorCode d = ParseError_Div0 ->
   occurs "/" str = true \/ occurs "^" str = true).
Proof.
  intros H.
  assert (He : errorExplained str (errorCode d) = true).
  { unfold parse, parseInputString in H.
    open_call r1 d1 Hcall.
    destruct (tiers_errors_explained str (parseFuel str)) as (Has & _).
    apply Has in Hcall; [|reflexivity].
    open_if; [close_some; assumption|].
    close_some. destruct (negb _); [reflexivity|assumption]. }
  split; intros E; rewrite E in He; cbn [errorExplained] in He.
  - exact He.
  - now apply orb_true_iff in He.
Qed.

Lemma errors_are_explained_by_the_input_witness :
  occurs "(" "(1+2" = true /\
  (occurs "/" "0^-1" = true \/ occurs "^" "0^-1" = true).
Proof.
  split.
  - apply (proj1 (errors_are_explained_by_the_input "(1+2" 0
             {| currentPosition := 4;
                errorCode := ParseError_NoClosingParenthesis |} eq_refl)).
    reflexivity.
  - apply (proj2 (errors_are_explained_by_the_input "0^-1" 0
             {| currentPosition := 4; errorCode := ParseError_Div0 |}
             eq_refl)).
    reflexivity.
Defined.

(** ** Blank input and plain literals *)

Lemma append_empty_r (s : string) : (s ++ "")%string = s.
Proof. induction s as [|c s IH]; simpl; congruence. Qed.

(** X8. An input of white space only, the empty input included, is a syntax
    error reported at the end of the input. *)
Theorem blank_input_is_syntax_error (str : string) :
  allSpaces str = true ->
  parse str
  = Some (0, {| currentPosition := String.length str;
                errorCode := ParseError_Syntax |}).
Proof.
  intros Hws. rewrite <- (append_empty_r str) at 1.
  rewrite parse_leading_spaces by assumption.
  change (parse "") with
    (Some (0, {| currentPosition := 0; errorCode := ParseError_Syntax |})).
  unfold shiftResult, shiftData. cbn [currentPosition errorCode].
  now rewrite Nat.add_0_r.
Qed.

Lemma blank_input_is_syntax_error_witness :
  parse "   "
  = Some (0, {| currentPosition := 3; errorCode := ParseError_Syntax |}).
Proof. apply (blank_input_is_syntax_error "   "). reflexivity. Defined.

Lemma scanDigits_literal :
  forall s acc,
    allDigits s = true ->
    scanDigits (String.length s) s 0 acc = (decimalValue s acc, String.length s).
Proof.
  induction s as [|c s IH]; intros acc Hd; [reflexivity|].
  cbn [allDigits] in Hd. apply andb_true_iff in Hd. destruct Hd as [Hc Hd].
  cbn [String.length scanDigits decimalValue].
  change (charAt (String c s) 0) with c. rewrite Hc.
  pose proof (scanDigits_app (String c "") s (String.length s) 0
                (acc * 10 + digitValue c)) as Happ.
  cbn [append String.length Nat.add] in Happ. rewrite Happ.
  now rewrite IH.
Qed.

Lemma allDigits_first (s : string) :
  allDigits s = true -> s <> EmptyString -> isdigit (charAt s 0) = true.
Proof.
  destruct s as [|c s]; [congruence|]. cbn [allDigits]. intros H _.
  apply andb_true_iff in H. exact (proj1 H).
Qed.

Lemma parseValue_literal (s : string) :
  allDigits s = true -> s <> EmptyString ->
  parseValue s initialData
  = (clamp (decimalValue s 0),
     {| currentPosition := String.length s; errorCode := ParseError_None |}).
Proof.
  intros Hd Hne.
  pose proof (allDigits_first s Hd Hne) as Hfirst.
  destruct (strtoll_digit s 0 Hfirst) as [Hs Hlt].
  rewrite Nat.sub_0_r, scanDigits_literal in Hs, Hlt by assumption.
  cbn [fst snd] in Hs, Hlt.
  unfold parseValue, skipWs, initialData. pos_simpl.
  rewrite skipWhitespace_fixed by now apply isdigit_not_space.
  rewrite Hs.
  destruct (Nat.eqb (String.length s) 0) eqn:E;
    [apply Nat.eqb_eq in E; lia|reflexivity].
Qed.

Lemma skipWs_at_end (str : string) (d : ParseData) :
  currentPosition d = String.length str ->
  skipWs str d = d /\ current str d = "000"%char.
Proof.
  intros Hd. unfold skipWs, current, setPosition.
  assert (Hc : charAt str (currentPosition d) = "000"%char)
    by (apply charAt_beyond; lia).
  rewrite skipWhitespace_fixed by now rewrite Hc.
  split; [now destruct d|exact Hc].
Qed.

(** An operand that ends where the input ends is the whole expression. *)
Lemma operand_then_end
  (str : string) (fuel : nat) (d : ParseData) (v : ValueType) (d1 : ParseData) :
  parseUnaryMinus str fuel d = Some (v, d1) ->
  errorCode d1 = ParseError_None ->
  currentPosition d1 = String.length str ->
  parseInputString str (S (S (S fuel))) d = Some (v, d1).
Proof.
  intros E F Hend.
  destruct (skipWs_at_end str d1 Hend) as [Hs Hc].
  assert (Ffalse : failed d1 = false) by (unfold failed; now rewrite F).
  assert (Hex : parseExponent str (S fuel) d = Some (v, d1)).
  { rewrite parseExponent_eq, E, Ffalse. cbv zeta. now rewrite Hs, Hc. }
  assert (Hmd : parseMulDiv str (S (S fuel)) d = Some (v, d1)).
  { rewrite parseMulDiv_eq, Hex, Ffalse, mulDivLoop_eq.
    cbv zeta. now rewrite Hs, Hc. }
  assert (Has : parseAddSubtract str (S (S (S fuel))) d = Some (v, d1)).
  { rewrite parseAddSubtract_eq, Hmd, Ffalse, addSubLoop_eq.
    cbv zeta. now rewrite Hs, Hc. }
  unfold parseInputString. rewrite Has, Ffalse. cbv zeta.
  rewrite Hs, Hc. cbn [Ascii.eqb Bool.eqb negb]. reflexivity.
Qed.

Lemma parse_literal (s : string) :
  allDigits s = true -> s <> EmptyString ->
  parse s
  = Some (clamp (decimalValue s 0),
          {| currentPosition := String.length s;
             errorCode := ParseError_None |}) /\
  (decimalValue s 0 <= LLONG_MAX -> clamp (decimalValue s 0) = decimalValue s 0) /\
  (LLONG_MAX < decimalValue s 0 -> clamp (decimalValue s 0) = LLONG_MAX).
Proof.
  intros Hd Hne.
  assert (Hnn : forall t acc, allDigits t = true -> 0 <= acc ->
                              0 <= decimalValue t acc).
  { induction t as [|c t IH]; intros acc Ht Hacc; [exact Hacc|].
    cbn [allDigits] in Ht. apply andb_true_iff in Ht. destruct Ht as [Hc Ht].
    cbn [decimalValue]. apply IH; [assumption|].
    unfold isdigit in Hc. apply andb_true_iff in Hc. destruct Hc as [Hc _].
    apply N.leb_le in Hc. unfold digitValue. lia. }
  specialize (Hnn s 0 Hd ltac:(lia)).
  repeat apply conj.
  - apply parse_fuel_irrelevant with (fuel := 5%nat).
    apply operand_then_end; [|reflexivity|reflexivity].
    rewrite parseUnaryMinus_eq. cbv zeta.
    pose proof (allDigits_first s Hd Hne) as Hfirst.
    assert (Hp0 : skipWs s initialData = initialData).
    { unfold skipWs, setPosition, initialData. cbn [currentPosition errorCode].
      now rewrite skipWhitespace_fixed by now apply isdigit_not_space. }
    rewrite Hp0. unfold current. cbn [currentPosition initialData].
    rewrite (isdigit_not_char _ "-"%char Hfirst eq_refl).
    rewrite parseParentheses_literal
      by (cbn [currentPosition initialData];
          rewrite skipWhitespace_fixed by (now apply isdigit_not_space);
          exact (isdigit_not_char _ "("%char Hfirst eq_refl)).
    now rewrite parseValue_literal.
  - intros Hle. unfold clamp, LLONG_MIN, LLONG_MAX in *.
    destruct (decimalValue s 0 <? - 2 ^ 63) eqn:E1; [apply Z.ltb_lt in E1; lia|].
    destruct (2 ^ 63 - 1 <? decimalValue s 0) eqn:E2;
      [apply Z.ltb_lt in E2; lia|reflexivity].
  - intros Hgt. unfold clamp, LLONG_MIN, LLONG_MAX in *.
    destruct (decimalValue s 0 <? - 2 ^ 63) eqn:E1; [apply Z.ltb_lt in E1; lia|].
    destruct (2 ^ 63 - 1 <? decimalValue s 0) eqn:E2;
      [reflexivity|apply Z.ltb_ge in E2; lia].
Qed.

(** X9. A run of decimal digits is accepted whole and denotes its decimal
    value, replaced by [LLONG_MAX] when that does not fit a [long long]. *)
Theorem literal_value (s : string) :
  allDigits s = true -> s <> EmptyString ->
  parse s
  = Some (clamp (decimalValue s 0),
          {| currentPosition := String.length s;
             errorCode := ParseError_None |}) /\
  (decimalValue s 0 <= LLONG_MAX -> clamp (decimalValue s 0) = decimalValue s 0) /\
  (LLONG_MAX < decimalValue s 0 -> clamp (decimalValue s 0) = LLONG_MAX).
Proof. exact (parse_literal s). Qed.

Lemma literal_value_witness :
  parse "0042"
  = Some (42, {| currentPosition := 4; errorCode := ParseError_None |}) /\
  parse "99999999999999999999"
  = Some (LLONG_MAX,
          {| currentPosition := 20; errorCode := ParseError_None |}).
Proof.
  split.
  - apply (proj1 (literal_value "0042" eq_refl ltac:(discriminate))).
  - destruct (literal_value "99999999999999999999" eq_refl
                ltac:(discriminate)) as (Hp & _ & Hmax).
    rewrite Hp, Hmax; [reflexivity|].
    vm_compute. reflexivity.
Defined.

Lemma decimalValue_nonneg :
  forall s acc, allDigits s = true -> 0 <= acc -> 0 <= decimalValue s acc.
Proof.
  induction s as [|c s IH]; intros acc Hs Hacc; [exact Hacc|].
  cbn [allDigits] in Hs. apply andb_true_iff in Hs. destruct Hs as [Hc Hs].
  cbn [decimalValue]. apply IH; [assumption|].
  unfold isdigit in Hc. apply andb_true_iff in Hc. destruct Hc as [Hc _].
  apply N.leb_le in Hc. unfold digitValue. lia.
Qed.

Lemma clamp_nonneg (z : Z) : 0 <= z -> 0 <= clamp z <= LLONG_MAX.
Proof.
  intros Hz. unfold clamp, LLONG_MIN, LLONG_MAX.
  destruct (z <? - 2 ^ 63) eqn:E1; [apply Z.ltb_lt in E1; lia|].
  destruct (2 ^ 63 - 1 <? z) eqn:E2; [lia|apply Z.ltb_ge in E2; lia].
Qed.

Lemma parse_negative_literal (s : string) :
  allDigits s = true -> s <> EmptyString ->
  parse ("-" ++ s)
  = Some (- clamp (decimalValue s 0),
          {| currentPosition := S (String.length s);
             errorCode := ParseError_None |}) /\
  - LLONG_MAX <= - clamp (decimalValue s 0) <= 0.
Proof.
  intros Hd Hne.
  pose proof (clamp_nonneg _ (decimalValue_nonneg s 0 Hd ltac:(lia))) as Hc.
  split; [|lia].
  apply parse_fuel_irrelevant with (fuel := 5%nat).
  apply operand_then_end; [|reflexivity|reflexivity].
  rewrite parseUnaryMinus_eq. cbv zeta.
  change (skipWs ("-" ++ s) initialData) with initialData.
  change (current ("-" ++ s) initialData) with "-"%char.
  cbn [Ascii.eqb Bool.eqb].
  change (advance initialData) with (shiftData (String.length "-") initialData).
  destruct (tiers_shift "-" s 1) as (_ & _ & _ & _ & _ & _ & Hpa).
  rewrite Hpa.
  pose proof (allDigits_first s Hd Hne) as Hfirst.
  rewrite parseParentheses_literal
    by (cbn [currentPosition initialData];
        rewrite skipWhitespace_fixed by (now apply isdigit_not_space);
        exact (isdigit_not_char _ "("%char Hfirst eq_refl)).
  rewrite parseValue_literal by assumption.
  cbn [shiftResult]. f_equal. f_equal.
  apply wrap_id. unfold inRange, LLONG_MIN, LLONG_MAX in *. lia.
Qed.

(** X10. A minus sign before a run of digits gives the negated value; as
    the sign is taken by [parseUnaryMinus] and the digits alone are
    converted, the result is never below [- LLONG_MAX]. *)
Theorem negative_literal_value (s : string) :
  allDigits s = true -> s <> EmptyString ->
  parse ("-" ++ s)
  = Some (- clamp (decimalValue s 0),
          {| currentPosition := S (String.length s);
             errorCode := ParseError_None |}) /\
  - LLONG_MAX <= - clamp (decimalValue s 0) <= 0.
Proof. exact (parse_negative_literal s). Qed.

Lemma negative_literal_value_witness :
  parse ("-" ++ "9223372036854775808")
  = Some (- LLONG_MAX,
          {| currentPosition := 20; errorCode := ParseError_None |}).
Proof.
  apply (proj1 (negative_literal_value "9223372036854775808" eq_refl
                  ltac:(discriminate))).
Defined.

(** ** Reading back what [printf] writes *)

Lemma allDigits_string_of_uint (d : Decimal.uint) :
  allDigits (NilEmpty.string_of_uint d) = true.
Proof. induction d; simpl; auto. Qed.

Lemma decimalValue_of_uint_acc (d : Decimal.uint) :
  forall acc,
    decimalValue (NilEmpty.string_of_uint d) (Z.pos acc)
    = Z.pos (Pos.of_uint_acc d acc).
Proof.
  induction d; intros acc; cbn [NilEmpty.string_of_uint decimalValue
                                  Pos.of_uint_acc];
    [reflexivity|..];
    rewrite <- IHd; f_equal;
    match goal with
    | |- context [digitValue ?c] =>
        let v := eval vm_compute in (digitValue c) in
        change (digitValue c) with v
    end; lia.
Qed.

Lemma decimalValue_of_uint (d : Decimal.uint) :
  decimalValue (NilEmpty.string_of_uint d) 0 = Z.of_N (Pos.of_uint d).
Proof.
  induction d; cbn [NilEmpty.string_of_uint decimalValue Pos.of_uint];
    [reflexivity|exact IHd|..];
    apply (decimalValue_of_uint_acc d).
Qed.

Lemma string_of_uint_to_uint (p : positive) :
  NilZero.string_of_uint (Pos.to_uint p)
  = NilEmpty.string_of_uint (Pos.to_uint p) /\
  NilEmpty.string_of_uint (Pos.to_uint p) <> EmptyString.
Proof.
  pose proof (Unsigned.to_uint_nonnil p) as Hnn.
  destruct (Pos.to_uint p); [congruence|..]; split; try reflexivity;
    discriminate.
Qed.

Lemma decimalValue_to_uint (p : positive) :
  decimalValue (NilEmpty.string_of_uint (Pos.to_uint p)) 0 = Z.pos p.
Proof.
  now rewrite decimalValue_of_uint, Unsigned.of_to.
Qed.

Lemma parse_printf_lld :
  (forall z,
     - LLONG_MAX <= z <= LLONG_MAX ->
     parse (printf_lld z)
     = Some (z, {| currentPosition := String.length (printf_lld z);
                   errorCode := ParseError_None |})) /\
  parse (printf_lld LLONG_MIN)
  = Some (LLONG_MIN + 1,
          {| currentPosition := String.length (printf_lld LLONG_MIN);
             errorCode := ParseError_None |}).
Proof.
  split; [|vm_compute; reflexivity].
  intros z Hz. destruct z as [|p|p].
  - vm_compute. reflexivity.
  - unfold printf_lld. cbn [Z.to_int NilZero.string_of_int].
    destruct (string_of_uint_to_uint p) as [-> Hne].
    destruct (parse_literal _ (allDigits_string_of_uint (Pos.to_uint p)) Hne)
      as (Hp & Hfit & _).
    rewrite Hp, Hfit; rewrite decimalValue_to_uint; [reflexivity|lia].
  - unfold printf_lld. cbn [Z.to_int NilZero.string_of_int].
    destruct (string_of_uint_to_uint p) as [-> Hne].
    destruct (parse_negative_literal _
                (allDigits_string_of_uint (Pos.to_uint p)) Hne) as (Hp & _).
    destruct (parse_literal _ (allDigits_string_of_uint (Pos.to_uint p)) Hne)
      as (_ & Hfit & _).
    change (String "-" (NilEmpty.string_of_uint (Pos.to_uint p)))
      with ("-" ++ NilEmpty.string_of_uint (Pos.to_uint p))%string.
    rewrite Hp, Hfit; rewrite decimalValue_to_uint; [reflexivity|].
    unfold LLONG_MAX in *. lia.
Qed.

(** X11. The parser reads back what [printf("%lld")] writes: the numeral of
    any value from [- LLONG_MAX] to [LLONG_MAX] parses, whole and without
    error, to that value.  The numeral of [LLONG_MIN] does not: its digits
    alone exceed [LLONG_MAX], and it parses to [LLONG_MIN + 1]. *)
Theorem parse_reads_back_printf :
  (forall z,
     - LLONG_MAX <= z <= LLONG_MAX ->
     parse (printf_lld z)
     = Some (z, {| currentPosition := String.length (printf_lld z);
                   errorCode := ParseError_None |})) /\
  parse (printf_lld LLONG_MIN)
  = Some (LLONG_MIN + 1,
          {| currentPosition := String.length (printf_lld LLONG_MIN);
             errorCode := ParseError_None |}).
Proof. exact (parse_printf_lld). Qed.

Lemma parse_reads_back_printf_witness :
  parse (printf_lld (-33555156))
  = Some (-33555156,
          {| currentPosition := 9; errorCode := ParseError_None |}).
Proof.
  apply (proj1 parse_reads_back_printf (-33555156)).
  unfold LLONG_MAX. lia.
Defined.

(** ** The diagnostic and the command line *)

Lemma get_in_spaces (n q : nat) (rest : string) :
  (q < n)%nat -> String.get q (spaces n ++ rest) = Some " "%char.
Proof.
  revert q. induction n as [|n IH]; intros q Hq; [lia|].
  destruct q as [|q]; [reflexivity|]. simpl. apply IH. lia.
Qed.

Lemma printErrorMsg_text (str : string) (d : ParseData) :
  (failed d = false -> printErrorMsg str d = None) /\
  (failed d = true ->
   exists out,
     printErrorMsg str d = Some (out, 1) /\
     (forall q, (q < String.length str)%nat ->
                String.get q out = String.get q str) /\
     String.get (String.length str) out = Some "010"%char /\
     (forall q, (q < currentPosition d)%nat ->
                String.get (q + 1 + String.length str) out = Some " "%char) /\
     String.get (currentPosition d + 1 + String.length str) out
     = Some "^"%char).
Proof.
  unfold failed, printErrorMsg. split.
  - destruct (errorCode d); [reflexivity|discriminate..].
  - intros F.
    assert (Hm : exists msg, errorMessages (errorCode d) = Some msg)
      by (destruct (errorCode d); [discriminate|cbn; eauto..]).
    destruct Hm as [msg ->]. eexists. split; [reflexivity|].
    repeat apply conj.
    + intros q Hq. symmetry. now apply append_correct1.
    + change (String.length str) with (0 + String.length str)%nat at 1.
      now rewrite <- append_correct2.
    + intros q Hq. rewrite <- append_correct2, Nat.add_1_r.
      unfold newline at 1. cbn [append String.get].
      now apply get_in_spaces.
    + rewrite <- append_correct2, Nat.add_1_r.
      unfold newline at 1. cbn [append String.get].
      now rewrite get_after_spaces.
Qed.

(** X12. For a state with an error [printErrorMsg] prints and returns 1:
    the text starts with the input on a line of its own, and in the next
    line the caret stands in the column of the cursor, after spaces only.
    Without an error there is no message to index. *)
Theorem printErrorMsg_layout (str : string) (d : ParseData) :
  (failed d = false -> printErrorMsg str d = None) /\
  (failed d = true ->
   exists out,
     printErrorMsg str d = Some (out, 1) /\
     (forall q, (q < String.length str)%nat ->
                String.get q out = String.get q str) /\
     String.get (String.length str) out = Some "010"%char /\
     (forall q, (q < currentPosition d)%nat ->
                String.get (q + 1 + String.length str) out = Some " "%char) /\
     String.get (currentPosition d + 1 + String.length str) out
     = Some "^"%char).
Proof. exact (printErrorMsg_text str d). Qed.

Lemma printErrorMsg_layout_witness :
  exists out,
    printErrorMsg "3 4" {| currentPosition := 2;
                           errorCode := ParseError_Syntax |}
    = Some (out, 1) /\
    String.get (2 + 1 + 3) out = Some "^"%char.
Proof.
  destruct (proj2 (printErrorMsg_layout "3 4"
                     {| currentPosition := 2;
                        errorCode := ParseError_Syntax |}) eq_refl)
    as (out & Hout & _ & _ & _ & Hcaret).
  exists out. split; [exact Hout|exact Hcaret].
Defined.

Lemma append_associative (a b c : string) :
  ((a ++ b) ++ c)%string = (a ++ b ++ c)%string.
Proof. induction a as [|x a IH]; simpl; [reflexivity|now rewrite IH]. Qed.

Lemma succeeds_true (arg : string) :
  succeeds arg = true ->
  exists v d, parse arg = Some (v, d) /\ failed d = false.
Proof.
  unfold succeeds. destruct (parse arg) as [[v d]|]; [|discriminate].
  intros H. apply negb_true_iff in H. eauto.
Qed.

Lemma succeeds_false (arg : string) :
  succeeds arg = false ->
  exists v d, parse arg = Some (v, d) /\ failed d = true.
Proof.
  unfold succeeds. destruct (parse_total arg) as (v & d & E). rewrite E.
  intros H. apply negb_false_iff in H. eauto.
Qed.

Lemma main_accepted (arg : string) (rest : list string) :
  succeeds arg = true ->
  main (arg :: rest)
  = ('(out, status) <- main rest ;;
     Some ((resultLine arg ++ out)%string, status)).
Proof.
  intros H. destruct (succeeds_true arg H) as (v & d & E & F).
  cbn [main]. unfold resultLine. rewrite E, F.
  destruct (main rest) as [[out status]|]; [|reflexivity].
  f_equal. f_equal. symmetry. apply append_associative.
Qed.

Lemma main_rejected (arg : string) (rest : list string)
  (v : ValueType) (d : ParseData) :
  parse arg = Some (v, d) -> failed d = true ->
  main (arg :: rest) = printErrorMsg arg d.
Proof. intros E F. cbn [main]. now rewrite E, F. Qed.

Lemma main_all_accepted (argv : list string) :
  forallb succeeds argv = true ->
  main argv = Some (fold_right append EmptyString (map resultLine argv), 0).
Proof.
  induction argv as [|arg rest IH]; intros H; [reflexivity|].
  cbn [forallb] in H. apply andb_true_iff in H. destruct H as [Ha Hr].
  rewrite main_accepted by assumption. now rewrite (IH Hr).
Qed.

(** X13. When every argument is accepted, [main] prints the values in the
    order of the arguments, one per line, and returns 0. *)
Theorem main_prints_every_result (argv : list string) :
  forallb succeeds argv = true ->
  main argv = Some (fold_right append EmptyString (map resultLine argv), 0).
Proof. exact (main_all_accepted argv). Qed.

Lemma main_prints_every_result_witness :
  main ["1+2*3"; "-2^4"]
  = Some ("7" ++ newline ++ "16" ++ newline, 0).
Proof.
  apply (main_prints_every_result ["1+2*3"; "-2^4"]). reflexivity.
Defined.

(** X14. [main] stops at the first argument that is rejected: it has
    printed the values of the arguments before it, prints the diagnostic for
    it, returns 1, and does not touch the arguments after it. *)
Theorem main_stops_at_first_error
  (good : list string) (bad : string) (rest : list string)
  (v : ValueType) (d : ParseData) :
  forallb succeeds good = true ->
  parse bad = Some (v, d) -> failed d = true ->
  exists diagnostic,
    printErrorMsg bad d = Some (diagnostic, 1) /\
    main (good ++ bad :: rest)
    = Some ((fold_right append EmptyString (map resultLine good)
             ++ diagnostic)%string, 1).
Proof.
  intros Hg E F.
  destruct (proj2 (printErrorMsg_text bad d) F) as (diag & Hd & _).
  exists diag. split; [exact Hd|].
  induction good as [|arg good IH].
  - cbn [List.app map fold_right append].
    now rewrite (main_rejected bad rest v d E F).
  - cbn [forallb] in Hg. apply andb_true_iff in Hg. destruct Hg as [Ha Hg].
    cbn [List.app]. rewrite main_accepted, (IH Hg) by assumption.
    cbn [map fold_right]. f_equal. f_equal. symmetry.
    apply append_associative.
Qed.

Lemma main_stops_at_first_error_witness :
  exists diagnostic,
    printErrorMsg "5/0" {| currentPosition := 3;
                           errorCode := ParseError_Div0 |}
    = Some (diagnostic, 1) /\
    main (["1+2"] ++ "5/0" :: ["7"; "(("])
    = Some (fold_right append EmptyString (map resultLine ["1+2"])
            ++ diagnostic, 1).
Proof.
  apply (main_stops_at_first_error ["1+2"] "5/0" ["7"; "(("] 0
           {| currentPosition := 3; errorCode := ParseError_Div0 |});
    reflexivity.
Defined.

Lemma main_status (argv : list string) :
  exists out status,
    main argv = Some (out, status) /\
    (status = 0 \/ status = 1) /\
    (status = 0 <-> forallb succeeds argv = true).
Proof.
  induction argv as [|arg rest IH].
  - exists EmptyString, 0. repeat split; auto.
  - destruct IH as (out & status & Hm & Hst & Hiff).
    destruct (succeeds arg) eqn:Ha.
    + exists (resultLine arg ++ out)%string, status.
      rewrite main_accepted, Hm by assumption.
      cbn [forallb]. rewrite Ha. cbn [andb].
      repeat split; try tauto; apply Hiff.
    + destruct (succeeds_false arg Ha) as (v & d & E & F).
      destruct (proj2 (printErrorMsg_text arg d) F) as (diag & Hd & _).
      exists diag, 1.
      rewrite (main_rejected arg rest v d E F), Hd.
      cbn [forallb]. rewrite Ha. cbn [andb].
      repeat split; try tauto; try discriminate; auto.
Qed.

(** X15. Whenever [main] returns, its status is 0 or 1, and it is 0 exactly
    when every argument was accepted; with no argument [main] prints
    nothing and returns 0. *)
Theorem main_exit_status (argv : list string) (out : string) (status : Z) :
  main argv = Some (out, status) ->
  (status = 0 \/ status = 1) /\
  (status = 0 <-> forallb succeeds argv = true) /\
  (argv = [] -> out = EmptyString /\ status = 0).
Proof.
  intros H.
  destruct (main_status argv) as (out' & status' & Hm & Hst & Hiff).
  rewrite Hm in H. injection H as <- <-.
  split; [exact Hst|]. split; [exact Hiff|].
  intros ->. cbn [main] in Hm. injection Hm as <- <-. now split.
Qed.

Lemma main_exit_status_witness :
  (1 = 0 \/ 1 = 1) /\ (1 = 0 <-> forallb succeeds ["1+2"; "5/0"; "7"] = true).
Proof.
  destruct (main_exit_status ["1+2"; "5/0"; "7"]
              ("3" ++ newline ++ "5/0" ++ newline ++ "   ^" ++ newline
               ++ "Division by 0" ++ newline) 1 eq_refl)
    as (Hst & Hiff & _).
  split; [exact Hst|exact Hiff].
Defined.

(** X16. Given the numerals of values between [- LLONG_MAX] and
    [LLONG_MAX], [main] prints these numerals back unchanged, one per line,
    and returns 0. *)
Theorem main_echoes_numerals (zs : list Z) :
  Forall (fun z => - LLONG_MAX <= z <= LLONG_MAX) zs ->
  main (map printf_lld zs)
  = Some (fold_right append EmptyString
            (map (fun z => (printf_lld z ++ newline)%string) zs), 0).
Proof.
  intros Hz.
  assert (Hall : forall z, - LLONG_MAX <= z <= LLONG_MAX ->
                   succeeds (printf_lld z) = true /\
                   resultLine (printf_lld z)
                   = (printf_lld z ++ newline)%string).
  { intros z Hr. unfold succeeds, resultLine.
    now rewrite (proj1 parse_printf_lld z Hr). }
  rewrite main_all_accepted.
  - f_equal. f_equal. rewrite map_map.
    induction Hz as [|z zs Hr _ IH]; [reflexivity|].
    cbn [map fold_right]. now rewrite (proj2 (Hall z Hr)), IH.
  - induction Hz as [|z zs Hr _ IH]; [reflexivity|].
    cbn [map forallb]. now rewrite (proj1 (Hall z Hr)), IH.
Qed.

Lemma main_echoes_numerals_witness :
  main (map printf_lld [42; -7; 0])
  = Some ("42" ++ newline ++ "-7" ++ newline ++ "0" ++ newline, 0).
Proof.
  apply (main_echoes_numerals [42; -7; 0]).
  repeat constructor; unfold LLONG_MAX; lia.
Defined.

(** ** Text after the part that is parsed *)

Section Suffix.

Variables s rest : string.

Local Abbreviation x := (s ++ rest)%string.
Local Abbreviation n := (String.length s).
(** Where the first character of [rest] that is no white space stands. *)
Local Abbreviation e := (String.length s + skipWhitespace rest 0)%nat.

Hypothesis rest_no_digit : isdigit (charAt rest 0) = false.
Hypothesis rest_no_operator :
  isOperator (charAt rest (skipWhitespace rest 0)) = false.

Lemma charAt_before (p : nat) : (p < n)%nat -> charAt x p = charAt s p.
Proof.
  intros Hp. unfold charAt. now rewrite <- append_correct1.
Qed.

Lemma charAt_at_end : charAt x n = charAt rest 0.
Proof. rewrite <- (Nat.add_0_r n). apply charAt_app. Qed.

Lemma charAt_e : charAt x e = charAt rest (skipWhitespace rest 0).
Proof. apply charAt_app. Qed.

Lemma skipWhitespace_at_end : skipWhitespace x n = e.
Proof. rewrite <- (Nat.add_0_r n) at 1. apply skipWhitespace_app. Qed.

Lemma skipWhitespace_suffix (p : nat) :
  (p <= n)%nat ->
  skipWhitespace x p
  = if (skipWhitespace s p <? n)%nat then skipWhitespace s p else e.
Proof.
  intros Hp.
  pose proof (skipWhitespace_ge s p) as Hge.
  pose proof (skipWhitespace_le s p Hp) as Hle.
  set (q := skipWhitespace s p) in *.
  assert (Hto : skipWhitespace x p = skipWhitespace x q).
  { replace q with (p + (q - p))%nat by lia.
    apply skipWhitespace_over_spaces. intros r Hr.
    rewrite charAt_before by lia.
    apply (skipWhitespace_loop_skipped s (n - p) p). fold (skipWhitespace s p).
    fold q. lia. }
  rewrite Hto.
  destruct (q <? n)%nat eqn:E.
  - apply Nat.ltb_lt in E. apply skipWhitespace_fixed.
    rewrite charAt_before by exact E. apply skipWhitespace_stops.
  - apply Nat.ltb_ge in E. replace q with n by lia.
    apply skipWhitespace_at_end.
Qed.

Lemma scanDigits_suffix :
  forall m p acc k,
    (p + m = n)%nat ->
    scanDigits (m + k) x p acc = scanDigits m s p acc.
Proof.
  induction m as [|m IH]; intros p acc k Hp.
  - cbn [Nat.add scanDigits]. replace p with n by lia.
    apply scanDigits_stuck. now rewrite charAt_at_end.
  - cbn [Nat.add scanDigits]. rewrite charAt_before by lia.
    destruct (isdigit (charAt s p)); [|reflexivity].
    apply IH. lia.
Qed.

(** Where [s] holds a literal, [x] holds the same literal. *)
Lemma strtoll_suffix (p : nat) :
  (p < n)%nat -> isspace (charAt s p) = false ->
  strtoll x p = strtoll s p.
Proof.
  intros Hp Hsp. unfold strtoll.
  rewrite (skipWhitespace_fixed s p Hsp).
  rewrite (skipWhitespace_fixed x p) by now rewrite charAt_before.
  rewrite charAt_before by exact Hp.
  set (sign := ((charAt s p =? "-")%char || (charAt s p =? "+")%char)%bool).
  set (p1 := if sign then S p else p).
  assert (Hp1 : (p1 <= n)%nat) by (subst p1; destruct sign; lia).
  rewrite length_app.
  replace (n + String.length rest - p1)%nat
    with ((n - p1) + String.length rest)%nat by lia.
  rewrite scanDigits_suffix by lia. reflexivity.
Qed.

Lemma sameUpToSpace_refl (d : ParseData) : sameUpToSpace x d d.
Proof. split; reflexivity. Qed.

(** After skipping white space the two states are the same state, unless
    the parse of [s] is at the end of [s]; then the parse of [x] is at the
    first character of [rest] that is no white space. *)
Lemma skipWs_suffix (d1 d2 : ParseData) :
  (currentPosition d1 <= n)%nat -> sameUpToSpace x d1 d2 ->
  sameUpToSpace x (skipWs s d1) (skipWs x d2) /\
  ((currentPosition (skipWs s d1) < n)%nat /\ skipWs x d2 = skipWs s d1 /\
   current x (skipWs x d2) = current s (skipWs s d1)
   \/
   currentPosition (skipWs s d1) = n /\
   current s (skipWs s d1) = "000"%char /\
   currentPosition (skipWs x d2) = e /\
   current x (skipWs x d2) = charAt rest (skipWhitespace rest 0)).
Proof.
  intros Hd [Herr Hpos].
  pose proof (skipWhitespace_suffix (currentPosition d1) Hd) as Hsuf.
  pose proof (skipWhitespace_le s (currentPosition d1) Hd) as Hle.
  unfold sameUpToSpace, skipWs, current, setPosition.
  cbn [currentPosition errorCode].
  rewrite <- Hpos, skipWhitespace_idem.
  set (q := skipWhitespace s (currentPosition d1)) in *.
  destruct (q <? n)%nat eqn:E; rewrite Hsuf.
  - apply Nat.ltb_lt in E.
    assert (Hfix : skipWhitespace x q = q).
    { apply skipWhitespace_fixed. rewrite charAt_before by exact E.
      apply skipWhitespace_stops. }
    repeat split; try assumption; try (symmetry; assumption).
    left. repeat split; [exact E|now rewrite Herr|now apply charAt_before].
  - apply Nat.ltb_ge in E. assert (Hq : q = n) by lia.
    repeat split; try assumption.
    + now rewrite Hq, skipWhitespace_at_end.
    + right. repeat split; [exact Hq|apply charAt_beyond; lia|apply charAt_e].
Qed.

(** A character that the parse of [s] finds under the cursor is found by
    the parse of [x] in the same state. *)
Lemma found_suffix (d1 d2 : ParseData) (c : ascii) :
  (currentPosition d1 <= n)%nat -> sameUpToSpace x d1 d2 ->
  c <> "000"%char ->
  (current s (skipWs s d1) =? c)%char = true ->
  skipWs x d2 = skipWs s d1 /\ (current x (skipWs x d2) =? c)%char = true /\
  (currentPosition (skipWs s d1) < n)%nat.
Proof.
  intros Hd HR Hc Hfound.
  destruct (skipWs_suffix d1 d2 Hd HR) as [_ [(Hlt & Heq & Hcur)|(_ & Hnul & _)]].
  - repeat split; [exact Heq|now rewrite Hcur|exact Hlt].
  - rewrite Hnul in Hfound. apply Ascii.eqb_eq in Hfound. congruence.
Qed.

(** An operator that the parse of [s] does not find is not found by the
    parse of [x] either. *)
Lemma operator_suffix (d1 d2 : ParseData) (c : ascii) :
  (currentPosition d1 <= n)%nat -> sameUpToSpace x d1 d2 ->
  isOperator c = true ->
  (current x (skipWs x d2) =? c)%char = (current s (skipWs s d1) =? c)%char.
Proof.
  intros Hd HR Hop.
  destruct (skipWs_suffix d1 d2 Hd HR)
    as [_ [(_ & _ & Hcur)|(_ & Hnul & _ & Hcur)]].
  - now rewrite Hcur.
  - rewrite Hcur, Hnul.
    destruct (_ =? c)%char eqn:E1.
    + apply Ascii.eqb_eq in E1. rewrite E1 in rest_no_operator. congruence.
    + destruct ("000" =? c)%char eqn:E2; [|reflexivity].
      apply Ascii.eqb_eq in E2. subst c. discriminate Hop.
Qed.

Lemma failed_same (d1 d2 : ParseData) :
  sameUpToSpace x d1 d2 -> failed d2 = failed d1.
Proof. intros [Herr _]. unfold failed. now rewrite Herr. Qed.

Lemma raise_suffix (b ex : ValueType) (d1 d2 : ParseData) :
  sameUpToSpace x d1 d2 ->
  fst (raise b ex d2) = fst (raise b ex d1) /\
  sameUpToSpace x (snd (raise b ex d1)) (snd (raise b ex d2)).
Proof.
  intros HR. unfold raise.
  destruct (ex =? 0); [now split|].
  destruct ((ex <? 0) && (b =? 0)); [split; [reflexivity|]|].
  - destruct HR as [_ Hpos]. split; [reflexivity|exact Hpos].
  - destruct (ex <? 0); now split.
Qed.

Lemma parseValue_fails_at_end (d : ParseData) :
  currentPosition d = n -> failed (snd (parseValue s d)) = true.
Proof.
  intros Hd. destruct (failed (snd (parseValue s d))) eqn:F; [reflexivity|].
  pose proof (parseValue_progress s d ltac:(lia) F) as Hlt.
  pose proof (parseValue_within s d ltac:(lia)) as Hw. unfold within in Hw.
  lia.
Qed.

Lemma parseValue_suffix (d : ParseData) :
  (currentPosition d < n)%nat ->
  isspace (charAt s (currentPosition d)) = false ->
  parseValue x d = parseValue s d.
Proof.
  intros Hd Hsp. unfold parseValue, skipWs. pos_simpl.
  rewrite (skipWhitespace_fixed s _ Hsp).
  rewrite (skipWhitespace_fixed x) by now rewrite charAt_before.
  now rewrite strtoll_suffix.
Qed.

(** A tier that succeeds on [s] succeeds on [x] with the same value, in a
    state that differs at most by white space of [rest] already skipped. *)
Lemma tiers_suffix :
  forall fuel,
    (forall d1 d2 v d1',
       parseAddSubtract s fuel d1 = Some (v, d1') -> failed d1' = false ->
       (currentPosition d1 <= n)%nat -> sameUpToSpace x d1 d2 ->
       exists d2', parseAddSubtract x fuel d2 = Some (v, d2') /\
                   sameUpToSpace x d1' d2') /\
    (forall r d1 d2 v d1',
       addSubLoop s fuel r d1 = Some (v, d1') -> failed d1' = false ->
       (currentPosition d1 <= n)%nat -> sameUpToSpace x d1 d2 ->
       exists d2', addSubLoop x fuel r d2 = Some (v, d2') /\
                   sameUpToSpace x d1' d2') /\
    (forall d1 d2 v d1',
       parseMulDiv s fuel d1 = Some (v, d1') -> failed d1' = false ->
       (currentPosition d1 <= n)%nat -> sameUpToSpace x d1 d2 ->
       exists d2', parseMulDiv x fuel d2 = Some (v, d2') /\
                   sameUpToSpace x d1' d2') /\
    (forall r d1 d2 v d1',
       mulDivLoop s fuel r d1 = Some (v, d1') -> failed d1' = false ->
       (currentPosition d1 <= n)%nat -> sameUpToSpace x d1 d2 ->
       exists d2', mulDivLoop x fuel r d2 = Some (v, d2') /\
                   sameUpToSpace x d1' d2') /\
    (forall d1 d2 v d1',
       parseExponent s fuel d1 = Some (v, d1') -> failed d1' = false ->
       (currentPosition d1 <= n)%nat -> sameUpToSpace x d1 d2 ->
       exists d2', parseExponent x fuel d2 = Some (v, d2') /\
                   sameUpToSpace x d1' d2') /\
    (forall d1 d2 v d1',
       parseUnaryMinus s fuel d1 = Some (v, d1') -> failed d1' = false ->
       (currentPosition d1 <= n)%nat -> sameUpToSpace x d1 d2 ->
       exists d2', parseUnaryMinus x fuel d2 = Some (v, d2') /\
                   sameUpToSpace x d1' d2') /\
    (forall d1 d2 v d1',
       parseParentheses s fuel d1 = Some (v, d1') -> failed d1' = false ->
       (currentPosition d1 <= n)%nat -> sameUpToSpace x d1 d2 ->
       exists d2', parseParentheses x fuel d2 = Some (v, d2') /\
                   sameUpToSpace x d1' d2').
Proof.
  induction fuel as [|fuel IH].
  { repeat apply conj; intros; discriminate. }
  destruct IH as (IHas & IHasl & IHmd & IHmdl & IHex & IHum & IHpa).
  destruct (tiers_within s fuel)
    as (Was & Wasl & Wmd & Wmdl & Wex & Wum & Wpa).
  unfold within in *.
  repeat apply conj.
  - (* parseAddSubtract *)
    intros d1 d2 v d1' H F Hd HR. rewrite parseAddSubtract_eq in *.
    open_call r1 m1 Hcall.
    destruct (failed m1) eqn:Fm; [close_some; congruence|].
    destruct (IHmd _ d2 _ _ Hcall Fm Hd HR) as (m2 & E2 & HR2).
    rewrite E2, (failed_same _ _ HR2), Fm.
    apply Wmd in Hcall; [|assumption].
    eapply IHasl; try eassumption. lia.
  - (* addSubLoop *)
    intros r d1 d2 v d1' H F Hd HR. rewrite addSubLoop_eq in *.
    cbv zeta in *.
    rewrite (operator_suffix d1 d2 "+" Hd HR eq_refl),
            (operator_suffix d1 d2 "-" Hd HR eq_refl).
    destruct (skipWs_suffix d1 d2 Hd HR) as [HRs _].
    destruct (negb _ && negb _) eqn:Hg; [close_some; eauto|].
    assert (Hfound : skipWs x d2 = skipWs s d1 /\
                     (currentPosition (skipWs s d1) < n)%nat).
    { destruct (current s (skipWs s d1) =? "+")%char eqn:Hp.
      - destruct (found_suffix d1 d2 "+" Hd HR ltac:(discriminate) Hp)
          as (H1 & _ & H3). now split.
      - cbn [negb andb] in Hg. apply negb_false_iff in Hg.
        destruct (found_suffix d1 d2 "-" Hd HR ltac:(discriminate) Hg)
          as (H1 & _ & H3). now split. }
    destruct Hfound as [Heq Hlt]. rewrite Heq.
    open_call r2 m1 Hcall.
    destruct (failed m1) eqn:Fm; [close_some; congruence|].
    destruct (IHmd _ _ _ _ Hcall Fm ltac:(pos_simpl; lia)
                (sameUpToSpace_refl _)) as (m2 & E2 & HR2).
    rewrite E2, (failed_same _ _ HR2), Fm.
    apply Wmd in Hcall; [|pos_simpl; lia].
    destruct (_ =? "+")%char; eapply IHasl; try eassumption; lia.
  - (* parseMulDiv *)
    intros d1 d2 v d1' H F Hd HR. rewrite parseMulDiv_eq in *.
    open_call r1 m1 Hcall.
    destruct (failed m1) eqn:Fm; [close_some; congruence|].
    destruct (IHex _ d2 _ _ Hcall Fm Hd HR) as (m2 & E2 & HR2).
    rewrite E2, (failed_same _ _ HR2), Fm.
    apply Wex in Hcall; [|assumption].
    eapply IHmdl; try eassumption. lia.
  - (* mulDivLoop *)
    intros r d1 d2 v d1' H F Hd HR. rewrite mulDivLoop_eq in *.
    cbv zeta in *.
    rewrite (operator_suffix d1 d2 "*" Hd HR eq_refl),
            (operator_suffix d1 d2 "/" Hd HR eq_refl).
    destruct (skipWs_suffix d1 d2 Hd HR) as [HRs _].
    destruct (negb _ && negb _) eqn:Hg; [close_some; eauto|].
    assert (Hfound : skipWs x d2 = skipWs s d1 /\
                     (currentPosition (skipWs s d1) < n)%nat).
    { destruct (current s (skipWs s d1) =? "*")%char eqn:Hp.
      - destruct (found_suffix d1 d2 "*" Hd HR ltac:(discriminate) Hp)
          as (H1 & _ & H3). now split.
      - cbn [negb andb] in Hg. apply negb_false_iff in Hg.
        destruct (found_suffix d1 d2 "/" Hd HR ltac:(discriminate) Hg)
          as (H1 & _ & H3). now split. }
    destruct Hfound as [Heq Hlt]. rewrite Heq.
    open_call r2 m1 Hcall.
    destruct (failed m1) eqn:Fm; [close_some; congruence|].
    destruct (IHex _ _ _ _ Hcall Fm ltac:(pos_simpl; lia)
                (sameUpToSpace_refl _)) as (m2 & E2 & HR2).
    rewrite E2, (failed_same _ _ HR2), Fm.
    apply Wex in Hcall; [|pos_simpl; lia].
    destruct (_ =? "*")%char; [eapply IHmdl; try eassumption; lia|].
    destruct (r2 =? 0); [close_some; discriminate F|].
    eapply IHmdl; try eassumption; lia.
  - (* parseExponent *)
    intros d1 d2 v d1' H F Hd HR. rewrite parseExponent_eq in *.
    open_call r1 m1 Hcall.
    destruct (failed m1) eqn:Fm; [close_some; congruence|].
    destruct (IHum _ d2 _ _ Hcall Fm Hd HR) as (m2 & E2 & HR2).
    rewrite E2, (failed_same _ _ HR2), Fm.
    apply Wum in Hcall; [|assumption]. cbv zeta in *.
    assert (Hm : (currentPosition m1 <= n)%nat) by lia.
    rewrite (operator_suffix m1 m2 "^" Hm HR2 eq_refl).
    destruct (skipWs_suffix m1 m2 Hm HR2) as [HRs _].
    destruct (negb _) eqn:Hg; [close_some; eauto|].
    apply negb_false_iff in Hg.
    destruct (found_suffix m1 m2 "^" Hm HR2 ltac:(discriminate) Hg)
      as (Heq & _ & Hlt).
    rewrite Heq.
    open_call r2 k1 Hcall2.
    destruct (failed k1) eqn:Fk; [close_some; congruence|].
    destruct (IHex _ _ _ _ Hcall2 Fk ltac:(pos_simpl; lia)
                (sameUpToSpace_refl _)) as (k2 & E3 & HR3).
    rewrite E3, (failed_same _ _ HR3), Fk.
    destruct (raise_suffix r1 r2 k1 k2 HR3) as [Hv Hs].
    close_some. rewrite H1 in Hv, Hs. cbn [fst snd] in Hv, Hs.
    exists (snd (raise r1 r2 k2)). split; [|exact Hs].
    rewrite <- Hv. now destruct (raise r1 r2 k2).
  - (* parseUnaryMinus *)
    intros d1 d2 v d1' H F Hd HR. rewrite parseUnaryMinus_eq in *.
    cbv zeta in *.
    rewrite (operator_suffix d1 d2 "-" Hd HR eq_refl).
    destruct (skipWs_suffix d1 d2 Hd HR) as [HRs _].
    pose proof (skipWs_within s d1 Hd) as Hs. unfold within in Hs.
    destruct (current s (skipWs s d1) =? "-")%char eqn:Hm.
    + destruct (found_suffix d1 d2 "-" Hd HR ltac:(discriminate) Hm)
        as (Heq & _ & Hlt).
      rewrite Heq.
      open_call r1 m1 Hcall. close_some.
      destruct (IHpa _ _ _ _ Hcall F ltac:(pos_simpl; lia)
                  (sameUpToSpace_refl _)) as (m2 & E2 & HR2).
      rewrite E2. eauto.
    + open_call r1 m1 Hcall. close_some.
      destruct (IHpa _ _ _ _ Hcall F ltac:(lia) HRs) as (m2 & E2 & HR2).
      rewrite E2. eauto.
  - (* parseParentheses *)
    intros d1 d2 v d1' H F Hd HR. rewrite parseParentheses_eq in *.
    cbv zeta in *.
    pose proof (skipWs_within s d1 Hd) as Hs. unfold within in Hs.
    destruct (negb (current s (skipWs s d1) =? "(")%char) eqn:Hg.
    + close_some.
      destruct (skipWs_suffix d1 d2 Hd HR)
        as [_ [(Hlt & Heq & Hcur)|(Hend & _)]].
      * rewrite Hcur, Heq, Hg.
        rewrite parseValue_suffix, H1;
          [eauto using sameUpToSpace_refl|exact Hlt|].
        apply skipWhitespace_stops.
      * pose proof (parseValue_fails_at_end (skipWs s d1) Hend) as Hf.
        rewrite H1 in Hf. cbn [snd] in Hf. congruence.
    + apply negb_false_iff in Hg.
      destruct (found_suffix d1 d2 "(" Hd HR ltac:(discriminate) Hg)
        as (Heq & Hcur & Hlt).
      rewrite Heq in *. rewrite Hcur. cbn [negb].
      open_call r1 m1 Hcall.
      destruct (negb (current s (skipWs s m1) =? ")")%char) eqn:Hg2;
        [close_some; discriminate F|].
      close_some.
      assert (Fm : failed m1 = false) by exact F.
      destruct (IHas _ _ _ _ Hcall Fm ltac:(pos_simpl; lia)
                  (sameUpToSpace_refl _)) as (m2 & E2 & HR2).
      rewrite E2.
      apply Was in Hcall; [|pos_simpl; lia].
      apply negb_false_iff in Hg2.
      destruct (found_suffix m1 m2 ")" ltac:(lia) HR2 ltac:(discriminate) Hg2)
        as (Heq2 & Hcur2 & Hlt2).
      rewrite Hcur2, Heq2. cbn [negb].
      eauto using sameUpToSpace_refl.
Qed.

End Suffix.

Lemma parse_accepted_inv (s : string) (v : ValueType) (d : ParseData) :
  validCString s = true ->
  parse s = Some (v, d) -> failed d = false ->
  exists d1,
    parseAddSubtract s (parseFuel s) initialData = Some (v, d1) /\
    failed d1 = false /\
    skipWhitespace s (currentPosition d1) = String.length s.
Proof.
  intros Hv H F. unfold parse, parseInputString in H.
  open_call r1 d1 Hcall.
  destruct (failed d1) eqn:F1; [close_some; congruence|].
  exists d1.
  destruct (tiers_within s (parseFuel s)) as (Was & _).
  pose proof (Was _ _ _ Hcall ltac:(simpl; lia)) as Hw. unfold within in Hw.
  cbv zeta in H.
  destruct (negb (current s (skipWs s d1) =? "000")%char) eqn:Hg.
  { close_some. discriminate F. }
  close_some. repeat split; try assumption.
  apply negb_false_iff, Ascii.eqb_eq in Hg.
  apply (at_terminator s _ Hv); [|exact Hg].
  apply skipWhitespace_le. lia.
Qed.

(** What follows an accepted expression decides the outcome: the value is
    kept, the cursor stops at the first character after it that is no white
    space, and the parse succeeds if that is the end of the input. *)
Lemma parse_accepted_then (s rest : string) (v : ValueType) (d : ParseData) :
  validCString s = true ->
  parse s = Some (v, d) -> failed d = false ->
  isdigit (charAt rest 0) = false ->
  isOperator (charAt rest (skipWhitespace rest 0)) = false ->
  parse (s ++ rest)
  = Some (v, {| currentPosition := String.length s + skipWhitespace rest 0;
                errorCode :=
                  if (charAt rest (skipWhitespace rest 0) =? "000")%char
                  then ParseError_None else ParseError_Syntax |}).
Proof.
  intros Hv H F Hnd Hno.
  destruct (parse_accepted_inv s v d Hv H F) as (d1 & E1 & F1 & Hend).
  destruct (tiers_suffix s rest Hnd Hno (parseFuel s)) as (Has & _).
  destruct (Has initialData initialData v d1 E1 F1 ltac:(simpl; lia)
              (sameUpToSpace_refl s rest _)) as (d2 & E2 & Herr & Hpos).
  apply parse_fuel_irrelevant with (fuel := parseFuel s).
  unfold parseInputString. rewrite E2.
  assert (F2 : failed d2 = false) by (unfold failed in *; now rewrite <- Herr).
  rewrite F2. cbv zeta. unfold current, skipWs, setPosition, setError.
  cbn [currentPosition errorCode].
  destruct (tiers_within s (parseFuel s)) as (Was & _).
  pose proof (Was _ _ _ E1 ltac:(simpl; lia)) as Hw. unfold within in Hw.
  rewrite <- Hpos, (skipWhitespace_suffix s rest) by lia.
  rewrite Hend, Nat.ltb_irrefl, charAt_e.
  unfold failed in F2. destruct (errorCode d2); try discriminate.
  now destruct (_ =? "000")%char.
Qed.

(** X17. White space after an accepted expression is ignored: the value is
    the same and the parse succeeds at the end of the longer input. *)
Theorem trailing_white_space_ignored
  (s ws : string) (v : ValueType) (d : ParseData) :
  validCString s = true -> allSpaces ws = true ->
  parse s = Some (v, d) -> failed d = false ->
  parse (s ++ ws)
  = Some (v, {| currentPosition := String.length s + String.length ws;
                errorCode := ParseError_None |}).
Proof.
  intros Hv Hws H F.
  assert (Hskip : skipWhitespace ws 0 = String.length ws).
  { rewrite (skipWhitespace_over_spaces ws (String.length ws) 0).
    - apply skipWhitespace_fixed. rewrite charAt_beyond by (simpl; lia).
      reflexivity.
    - intros q Hq. rewrite <- (append_empty_r ws).
      apply allSpaces_charAt; [assumption|lia]. }
  assert (Hend : charAt ws (String.length ws) = "000"%char)
    by (apply charAt_beyond; lia).
  rewrite (parse_accepted_then s ws v d Hv H F).
  - now rewrite Hskip, Hend.
  - destruct ws as [|c ws']; [reflexivity|].
    cbn [allSpaces] in Hws. apply andb_true_iff in Hws.
    destruct Hws as [Hc _]. change (charAt (String c ws') 0) with c.
    destruct (isdigit c) eqn:Hd; [|reflexivity].
    apply isdigit_not_space in Hd. congruence.
  - now rewrite Hskip, Hend.
Qed.

Lemma trailing_white_space_ignored_witness :
  parse ("-2^4" ++ "  ")
  = Some (16, {| currentPosition := 4 + 2; errorCode := ParseError_None |}).
Proof.
  apply (trailing_white_space_ignored "-2^4" "  " 16
           {| currentPosition := 4; errorCode := ParseError_None |});
    reflexivity.
Defined.

(** X18. Text after an accepted expression that does not continue it is
    a syntax error at its first character that is no white space: when the
    character right after the expression is no digit and the first one that
    is no white space is neither an operator nor the end of the input, the
    error is [ParseError_Syntax] with the cursor on that character; the
    value of the expression is still returned. *)
Theorem trailing_text_is_syntax_error
  (s rest : string) (v : ValueType) (d : ParseData) :
  validCString s = true ->
  parse s = Some (v, d) -> failed d = false ->
  isdigit (charAt rest 0) = false ->
  isOperator (charAt rest (skipWhitespace rest 0)) = false ->
  charAt rest (skipWhitespace rest 0) <> "000"%char ->
  parse (s ++ rest)
  = Some (v, {| currentPosition := String.length s + skipWhitespace rest 0;
                errorCode := ParseError_Syntax |}).
Proof.
  intros Hv H F Hnd Hno Hnn.
  rewrite (parse_accepted_then s rest v d Hv H F Hnd Hno).
  apply Ascii.eqb_neq in Hnn. now rewrite Hnn.
Qed.

Lemma trailing_text_is_syntax_error_witness :
  parse ("1+2" ++ "  )")
  = Some (3, {| currentPosition := 3 + 2; errorCode := ParseError_Syntax |}).
Proof.
  apply (trailing_text_is_syntax_error "1+2" "  )" 3
           {| currentPosition := 3; errorCode := ParseError_None |});
    try reflexivity.
  discriminate.
Defined.

(** X19. Parentheses around an accepted expression change nothing but the
    length: the value is the same and the parse succeeds at the end. *)
Theorem parentheses_keep_value (s : string) (v : ValueType) (d : ParseData) :
  validCString s = true ->
  parse s = Some (v, d) -> failed d = false ->
  parse ("(" ++ s ++ ")")
  = Some (v, {| currentPosition := String.length s + 2;
                errorCode := ParseError_None |}).
Proof.
  intros Hv H F.
  destruct (parse_accepted_inv s v d Hv H F) as (d1 & E1 & F1 & Hend).
  set (fuel := parseFuel s) in *.
  destruct (tiers_suffix s ")" eq_refl eq_refl fuel) as (Has & _).
  destruct (Has initialData initialData v d1 E1 F1 ltac:(simpl; lia)
              (sameUpToSpace_refl s ")" _)) as (d2 & E2 & Herr & Hpos).
  destruct (tiers_within s fuel) as (Was & _).
  pose proof (Was _ _ _ E1 ltac:(simpl; lia)) as Hw. unfold within in Hw.
  assert (Hq : skipWhitespace (s ++ ")") (currentPosition d2)
               = String.length s).
  { rewrite <- Hpos, (skipWhitespace_suffix s ")") by lia.
    rewrite Hend, Nat.ltb_irrefl.
    change (skipWhitespace ")" 0) with 0%nat. lia. }
  assert (E2none : errorCode d2 = ParseError_None).
  { unfold failed in F1. rewrite <- Herr.
    destruct (errorCode d1); [reflexivity|discriminate..]. }
  destruct (tiers_shift "(" (s ++ ")") fuel) as (Hshift & _).
  specialize (Hshift initialData). rewrite E2 in Hshift.
  cbn [shiftResult] in Hshift.
  assert (Hpa : parseParentheses ("(" ++ s ++ ")") (S fuel) initialData
                = Some (v, {| currentPosition := String.length s + 2;
                              errorCode := ParseError_None |})).
  { rewrite parseParentheses_eq. cbv zeta.
    change (skipWs ("(" ++ s ++ ")") initialData) with initialData.
    change (current ("(" ++ s ++ ")") initialData) with "("%char.
    cbn [Ascii.eqb Bool.eqb negb].
    change (advance initialData) with (shiftData (String.length "(") initialData).
    rewrite Hshift. rewrite (skipWs_shift "(" (s ++ ")") d2).
    rewrite current_shift. unfold current, skipWs at 1, setPosition.
    cbn [currentPosition].
    rewrite Hq, (charAt_at_end s ")").
    change (charAt ")" 0) with ")"%char. cbn [Ascii.eqb Bool.eqb negb].
    unfold advance, shiftData, skipWs, setPosition.
    cbn [currentPosition errorCode String.length].
    rewrite Hq, E2none. do 3 f_equal. lia. }
  apply parse_fuel_irrelevant with (fuel := S (S (S (S (S fuel))))).
  apply operand_then_end.
  - rewrite parseUnaryMinus_eq. cbv zeta.
    change (skipWs ("(" ++ s ++ ")") initialData) with initialData.
    change (current ("(" ++ s ++ ")") initialData) with "("%char.
    cbn [Ascii.eqb Bool.eqb]. now rewrite Hpa.
  - reflexivity.
  - cbn [currentPosition]. cbn [append String.length].
    rewrite length_app. simpl. lia.
Qed.

Lemma parentheses_keep_value_witness :
  parse ("(" ++ "1-2+3" ++ ")")
  = Some (2, {| currentPosition := 5 + 2; errorCode := ParseError_None |}).
Proof.
  apply (parentheses_keep_value "1-2+3" 2
           {| currentPosition := 5; errorCode := ParseError_None |});
    reflexivity.
Defined.

(** An operand that fails makes the whole parse fail, in the same state and
    with value 0. *)
Lemma operand_fails
  (str : string) (fuel : nat) (d : ParseData) (v : ValueType) (d1 : ParseData) :
  parseUnaryMinus str fuel d = Some (v, d1) -> failed d1 = true ->
  parseInputString str (S (S (S fuel))) d = Some (0, d1).
Proof.
  intros E F. unfold parseInputString.
  rewrite parseAddSubtract_eq, parseMulDiv_eq, parseExponent_eq, E.
  cbv beta iota. rewrite F. cbv beta iota. rewrite F.
  rewrite F. cbv beta iota. now rewrite F.
Qed.

(** X20. An opening parenthesis before an accepted expression, with nothing
    after it, is reported as [ParseError_NoClosingParenthesis] with the
    cursor at the end of the input. *)
Theorem unclosed_parenthesis (s : string) (v : ValueType) (d : ParseData) :
  validCString s = true ->
  parse s = Some (v, d) -> failed d = false ->
  parse ("(" ++ s)
  = Some (0, {| currentPosition := String.length s + 1;
                errorCode := ParseError_NoClosingParenthesis |}).
Proof.
  intros Hv H F.
  destruct (parse_accepted_inv s v d Hv H F) as (d1 & E1 & F1 & Hend).
  set (fuel := parseFuel s) in *.
  destruct (tiers_shift "(" s fuel) as (Hshift & _).
  specialize (Hshift initialData). rewrite E1 in Hshift.
  cbn [shiftResult] in Hshift.
  apply parse_fuel_irrelevant with (fuel := S (S (S (S (S fuel))))).
  apply (operand_fails _ _ _ 0); [|reflexivity].
  rewrite parseUnaryMinus_eq. cbv zeta.
  change (skipWs ("(" ++ s) initialData) with initialData.
  change (current ("(" ++ s) initialData) with "("%char.
  cbn [Ascii.eqb Bool.eqb].
  rewrite parseParentheses_eq. cbv zeta.
  change (skipWs ("(" ++ s) initialData) with initialData.
  change (current ("(" ++ s) initialData) with "("%char.
  cbn [Ascii.eqb Bool.eqb negb].
  change (advance initialData) with (shiftData (String.length "(") initialData).
  rewrite Hshift, (skipWs_shift "(" s d1), current_shift.
  unfold current, skipWs at 1, setPosition. cbn [currentPosition].
  rewrite Hend, charAt_beyond by lia.
  cbn [Ascii.eqb Bool.eqb negb].
  unfold setError, shiftData, skipWs, setPosition.
  cbn [currentPosition errorCode String.length].
  rewrite Hend. do 3 f_equal. lia.
Qed.

Lemma unclosed_parenthesis_witness :
  parse ("(" ++ "1+2")
  = Some (0, {| currentPosition := 3 + 1;
                errorCode := ParseError_NoClosingParenthesis |}).
Proof.
  apply (unclosed_parenthesis "1+2" 3
           {| currentPosition := 3; errorCode := ParseError_None |});
    reflexivity.
Defined.
